(** * ollama_agent: a shallow embedding of [ollama_agent.py]

    The development follows the source file top to bottom:

    - [Py]     : the Python values that travel in a tool-call argument
                 dictionary, truthiness, [==], [str()], exceptions;
    - [Str]    : the [str] methods the tools call ([startswith], [in],
                 [replace], [strip]);
    - [Fs]     : resolved paths, a tree-shaped file system keyed by path,
                 a log of the operations performed on it, and the
                 state-and-exception monad the tools run in;
    - the three tool functions and [_create_new_file];
    - the [Agent] class: [run_inference], [execute_tool] and one iteration
      of the [while True] loop of [run], plus runs over several iterations.

    What the Python program gets from its environment is a parameter
    here: how [Path(...).resolve()] maps a string to an absolute path
    (it depends on symbolic links), what the working directory is, the
    texts of the operating system's errors, the order in which it lists
    a directory, what the user types and what the model answers. Paths
    and newlines are those of POSIX; the file system holds regular
    files and directories, all of them readable and writable. *)

From Stdlib Require Import ZArith String Ascii List Lia.
From stdpp Require Import base option list gmap strings pretty sorting.

Local Open Scope string_scope.
Local Open Scope list_scope.

(* ================================================================== *)
(** ** Python values *)
(* ================================================================== *)

Module Py.

(** The scalar JSON values a model can put in a tool-call argument.
    Lists, objects and floats are left out: like the scalars that are
    not strings, they are neither [None] nor a [str] for the tools.

    A [str] is held as the UTF-8 bytes of its characters, a lone
    surrogate (which a [str] can hold and UTF-8 cannot) as the three
    bytes the UTF-8 scheme would give it. On such strings the search,
    comparison and concatenation of bytes are those of characters. *)
Inductive pyval : Type :=
| VNone
| VBool (b : bool)
| VInt (z : Z)
| VStr (s : string).

#[global] Instance pyval_eq_dec : EqDecision pyval.
Proof. solve_decision. Defined.

(** [bool(v)], as used by [if not v]. *)
Definition truthy (v : pyval) : bool :=
  match v with
  | VNone => false
  | VBool b => b
  | VInt z => negb (z =? 0)%Z
  | VStr s => negb (String.eqb s "")
  end.

(** [v is None]. *)
Definition is_none (v : pyval) : bool :=
  match v with VNone => true | _ => false end.

(** [bool] is a subclass of [int]: [True == 1] and [False == 0]. *)
Definition as_int (v : pyval) : option Z :=
  match v with
  | VBool b => Some (if b then 1 else 0)%Z
  | VInt z => Some z
  | _ => None
  end.

(** [a == b]. *)
Definition py_eq (a b : pyval) : bool :=
  match a, b with
  | VNone, VNone => true
  | VStr s, VStr t => String.eqb s t
  | _, _ =>
      match as_int a, as_int b with
      | Some x, Some y => (x =? y)%Z
      | _, _ => false
      end
  end.

(** [str(v)], which is also what [f"{v}"] interpolates. *)
Definition py_str (v : pyval) : string :=
  match v with
  | VNone => "None"
  | VBool true => "True"
  | VBool false => "False"
  | VInt z => pretty z
  | VStr s => s
  end.

(** [type(v).__name__]. *)
Definition py_type_name (v : pyval) : string :=
  match v with
  | VNone => "NoneType"
  | VBool _ => "bool"
  | VInt _ => "int"
  | VStr _ => "str"
  end.

(** Exceptions: the class and the text [str(e)] gives. *)
Inductive exn_class : Type :=
| TypeError
| ValueError
| RuntimeError
| FileNotFoundError
| FileExistsError
| IsADirectoryError
| NotADirectoryError
| ConnectionError
| UnicodeDecodeError
| UnicodeEncodeError.

Record exn : Type := Exn { exn_kind : exn_class; exn_text : string }.

(** The outcome of evaluating an expression or running a block. *)
Inductive res (A : Type) : Type :=
| Ok (a : A)
| Raise (e : exn).
Arguments Ok {A} a.
Arguments Raise {A} e.

End Py.
Export Py.

(* ================================================================== *)
(** ** The [str] methods used by the tools *)
(* ================================================================== *)

Module Str.

(** [s.startswith(p)]. *)
Fixpoint startswith (p s : string) : bool :=
  match p, s with
  | "", _ => true
  | String a p', String b s' => if Ascii.eqb a b then startswith p' s' else false
  | String _ _, "" => false
  end.

(** [old in s]. *)
Fixpoint contains (old s : string) : bool :=
  startswith old s ||
  match s with
  | "" => false
  | String _ s' => contains old s'
  end.

(** [s[n:]]. *)
Fixpoint drop (n : nat) (s : string) : string :=
  match n, s with
  | O, _ => s
  | S n', String _ s' => drop n' s'
  | S _, "" => ""
  end.

(** [s.replace(old, new)] for a non-empty [old]: scan left to right,
    replace every occurrence, continue after the replaced text.
    [skip] counts the characters of a matched occurrence still to be
    passed over. *)
Fixpoint replace_from (old new : string) (skip : nat) (s : string) : string :=
  match s with
  | "" => ""
  | String c s' =>
      match skip with
      | S k => replace_from old new k s'
      | O =>
          if startswith old s
          then new +:+ replace_from old new (String.length old - 1) s'
          else String c (replace_from old new 0 s')
      end
  end.

(** [lo <= c <= hi] on the value of a byte. *)
Definition in_range (lo hi : nat) (c : ascii) : bool :=
  ((lo <=? nat_of_ascii c) && (nat_of_ascii c <=? hi))%nat.

(** A continuation byte, [10xxxxxx]: every byte of a character but
    its first. *)
Definition continuation (c : ascii) : bool := in_range 128 191 c.

(** [s.replace("", new)]: [new] before every character and at the end. *)
Fixpoint replace_empty (new s : string) : string :=
  match s with
  | "" => new
  | String c s' =>
      if continuation c then String c (replace_empty new s')
      else new +:+ String c (replace_empty new s')
  end.

Definition replace (old new s : string) : string :=
  if String.eqb old "" then replace_empty new s else replace_from old new 0 s.

(** The number of occurrences [replace] substitutes, i.e.
    [s.count(old)] for a non-empty [old]. *)
Fixpoint count_from (old : string) (skip : nat) (s : string) : nat :=
  match s with
  | "" => 0
  | String c s' =>
      match skip with
      | S k => count_from old k s'
      | O =>
          if startswith old s
          then S (count_from old (String.length old - 1) s')
          else count_from old 0 s'
      end
  end.

Definition count (old s : string) : nat := count_from old 0 s.

(** [s[:-1]]. *)
Fixpoint but_last (s : string) : string :=
  match s with
  | "" => ""
  | String c r => match r with "" => "" | _ => String c (but_last r) end
  end.

(** "Every occurrence of [old] is replaced by [new]", said without
    the scan: the text is cut at the leftmost occurrence of [old] (none
    starts earlier, so [old] does not occur in what precedes it
    followed by [old] less its last character), this copy gives way to
    [new], and the same is done with what follows it. *)
Inductive replaced_all (old new : string) : string -> string -> Prop :=
| replaced_none (u : string) :
    contains old u = false -> replaced_all old new u u
| replaced_step (u rest rest' : string) :
    contains old (u +:+ but_last old) = false ->
    replaced_all old new rest rest' ->
    replaced_all old new (u +:+ old +:+ rest) (u +:+ new +:+ rest').

(** The whitespace [str.strip()] removes: the characters for which
    [str.isspace] holds, in UTF-8. One byte: U+0009..U+000D,
    U+001C..U+0020. Two bytes: U+0085, U+00A0. Three bytes: U+1680,
    U+2000..U+200A, U+2028, U+2029, U+202F, U+205F, U+3000. *)
Definition is_whitespace (c : ascii) : bool :=
  in_range 9 13 c || in_range 28 32 c.

Definition is_whitespace2 (a b : ascii) : bool :=
  in_range 194 194 a && (in_range 133 133 b || in_range 160 160 b).

Definition is_whitespace3 (a b c : ascii) : bool :=
  (in_range 225 225 a && in_range 154 154 b && in_range 128 128 c)
  || (in_range 226 226 a && in_range 128 128 b
      && (in_range 128 138 c || in_range 168 169 c || in_range 175 175 c))
  || (in_range 226 226 a && in_range 129 129 b && in_range 159 159 c)
  || (in_range 227 227 a && in_range 128 128 b && in_range 128 128 c).

(** Whitespace removed from the front. With [backwards] the bytes are
    those of the reversed string, so a character shows its last byte
    first. *)
Fixpoint lstrip_bytes (backwards : bool) (s : string) : string :=
  match s with
  | "" => ""
  | String a r1 =>
      if is_whitespace a then lstrip_bytes backwards r1
      else
        match r1 with
        | "" => s
        | String b r2 =>
            if (if backwards then is_whitespace2 b a else is_whitespace2 a b)
            then lstrip_bytes backwards r2
            else
              match r2 with
              | "" => s
              | String c r3 =>
                  if (if backwards then is_whitespace3 c b a else is_whitespace3 a b c)
                  then lstrip_bytes backwards r3
                  else s
              end
        end
  end.

(** [s.lstrip()]. *)
Definition lstrip (s : string) : string := lstrip_bytes false s.

(** [s.strip()]. *)
Definition strip (s : string) : string :=
  String.rev (lstrip_bytes true (String.rev (lstrip s))).

(** The UTF-8 encoding of the character with code point [cp]. *)
Definition encode_char (cp : N) : string :=
  let byte (n : N) := ascii_of_N n in
  let low (n : N) := byte (128 + n mod 64)%N in
  if (cp <? 128)%N then String (byte cp) ""
  else if (cp <? 2048)%N then String (byte (192 + cp / 64)%N) (String (low cp) "")
  else if (cp <? 65536)%N
  then String (byte (224 + cp / 4096)%N) (String (low (cp / 64)%N) (String (low cp) ""))
  else String (byte (240 + cp / 262144)%N)
         (String (low (cp / 4096)%N) (String (low (cp / 64)%N) (String (low cp) ""))).

(** The code points for which [str.isspace] holds. *)
Definition whitespace_code_points : list N :=
  [9; 10; 11; 12; 13; 28; 29; 30; 31; 32; 133; 160; 5760;
   8192; 8193; 8194; 8195; 8196; 8197; 8198; 8199; 8200; 8201; 8202;
   8232; 8233; 8239; 8287; 12288]%N.

(** The whitespace characters, one string each. *)
Definition whitespace : list string := map encode_char whitespace_code_points.

(** *** Text files: UTF-8 and newlines *)

(** The second byte allowed after the first byte of a three-byte
    character: no overlong form, no surrogate. *)
Definition second_of_three (b1 b2 : ascii) : bool :=
  if in_range 224 224 b1 then in_range 160 191 b2
  else if in_range 237 237 b1 then in_range 128 159 b2
  else continuation b2.

(** The second byte allowed after the first byte of a four-byte
    character: no overlong form, nothing above U+10FFFF. *)
Definition second_of_four (b1 b2 : ascii) : bool :=
  if in_range 240 240 b1 then in_range 144 191 b2
  else if in_range 244 244 b1 then in_range 128 143 b2
  else continuation b2.

(** The bytes are well-formed UTF-8: what the strict decoder of
    [open(..., encoding="utf-8")] accepts, and, for a [str] held as
    bytes, that it has no lone surrogate and can be encoded. *)
Fixpoint utf8_valid (s : string) : bool :=
  match s with
  | "" => true
  | String b1 r1 =>
      if in_range 0 127 b1 then utf8_valid r1
      else
        match r1 with
        | "" => false
        | String b2 r2 =>
            if in_range 194 223 b1 then continuation b2 && utf8_valid r2
            else
              match r2 with
              | "" => false
              | String b3 r3 =>
                  if in_range 224 239 b1
                  then second_of_three b1 b2 && continuation b3 && utf8_valid r3
                  else
                    match r3 with
                    | "" => false
                    | String b4 r4 =>
                        in_range 240 244 b1 && second_of_four b1 b2
                        && continuation b3 && continuation b4 && utf8_valid r4
                    end
              end
        end
  end.

(** The same, character by character: the text is a sequence of
    well-formed characters of one to four bytes. *)
Inductive Utf8 : string -> Prop :=
| Utf8_nil : Utf8 ""
| Utf8_one b1 r :
    in_range 0 127 b1 = true ->
    Utf8 r -> Utf8 (String b1 r)
| Utf8_two b1 b2 r :
    in_range 0 127 b1 = false -> in_range 194 223 b1 = true ->
    continuation b2 = true ->
    Utf8 r -> Utf8 (String b1 (String b2 r))
| Utf8_three b1 b2 b3 r :
    in_range 0 127 b1 = false -> in_range 194 223 b1 = false ->
    in_range 224 239 b1 = true ->
    second_of_three b1 b2 = true -> continuation b3 = true ->
    Utf8 r -> Utf8 (String b1 (String b2 (String b3 r)))
| Utf8_four b1 b2 b3 b4 r :
    in_range 0 127 b1 = false -> in_range 194 223 b1 = false ->
    in_range 224 239 b1 = false -> in_range 240 244 b1 = true ->
    second_of_four b1 b2 = true -> continuation b3 = true -> continuation b4 = true ->
    Utf8 r -> Utf8 (String b1 (String b2 (String b3 (String b4 r)))).

Definition CR : ascii := ascii_of_nat 13.
Definition LF : ascii := ascii_of_nat 10.

(** Reading in text mode with universal newlines: CR LF and a CR alone
    both arrive as LF. *)
Fixpoint universal_newlines (s : string) : string :=
  match s with
  | "" => ""
  | String c r =>
      if Ascii.eqb c CR then
        match r with
        | String c' r' =>
            if Ascii.eqb c' LF then String LF (universal_newlines r')
            else String LF (universal_newlines r)
        | "" => String LF ""
        end
      else String c (universal_newlines r)
  end.

(** The text has a CR somewhere. *)
Fixpoint has_cr (s : string) : bool :=
  match s with
  | "" => false
  | String c r => Ascii.eqb c CR || has_cr r
  end.

End Str.

(* ================================================================== *)
(** ** Paths, the file system and the monad of the tools *)
(* ================================================================== *)

Module Fs.

(** A resolved [Path]: absolute, its components from the root. *)
Abbreviation path := (list string).

Fixpoint join_parts (p : path) : string :=
  match p with
  | [] => ""
  | c :: p' => "/" +:+ c +:+ join_parts p'
  end.

(** [str(p)]. *)
Definition path_str (p : path) : string :=
  match p with
  | [] => "/"
  | _ => join_parts p
  end.

(** [p.parent]; the root is its own parent. *)
Definition parent (p : path) : path := removelast p.

(** [p.name]. *)
Definition name (p : path) : string := List.last p "".

(** [p.is_relative_to(base)]: [p] is [base] or lies below it. *)
Definition is_relative_to (p base : path) : Prop := base `prefix_of` p.

(** A regular file with the bytes it holds, or a directory. *)
Inductive node : Type :=
| File (content : string)
| Dir.

(** What a tool can do to the file system. *)
Inductive fs_op : Type :=
| OpExists (p : path)
| OpIsFile (p : path)
| OpIsDir (p : path)
| OpRead (p : path)
| OpWrite (p : path)
| OpMkdir (p : path)
| OpIterdir (p : path).

(** The files and directories, and the operations performed so far
    (latest last). *)
Record world : Type := World {
  files : gmap path node;
  oplog : list fs_op
}.

(** The root always exists and is a directory. *)
Definition node_at (fs : gmap path node) (p : path) : option node :=
  match p with
  | [] => Some Dir
  | _ => fs !! p
  end.

(** A block of Python code: it runs in a world, returns or raises,
    and leaves a world. *)
Definition M (A : Type) : Type := world -> res A * world.

#[global] Instance M_ret : MRet M := fun A a w => (Ok a, w).

#[global] Instance M_bind : MBind M := fun A B f m w =>
  match m w with
  | (Ok a, w') => f a w'
  | (Raise e, w') => (Raise e, w')
  end.

Definition raise {A} (e : exn) : M A := fun w => (Raise e, w).

Definition lift {A} (r : res A) : M A := fun w => (r, w).

(** [try: body except Exception as e: handler(e)]. *)
Definition try_except {A} (body : M A) (handler : exn -> M A) : M A :=
  fun w =>
    match body w with
    | (Ok a, w') => (Ok a, w')
    | (Raise e, w') => handler e w'
    end.

(** The world after one more operation is recorded. *)
Definition logged (w : world) (op : fs_op) : world :=
  {| files := files w; oplog := oplog w ++ [op] |}.

Definition log (op : fs_op) : M unit :=
  fun w => (Ok tt, logged w op).

Definition get_files : M (gmap path node) := fun w => (Ok (files w), w).

Definition put_files (fs : gmap path node) : M unit :=
  fun w => (Ok tt, World fs (oplog w)).

Fixpoint mapM {A B} (f : A -> M B) (l : list A) : M (list B) :=
  match l with
  | [] => mret []
  | a :: l' => b ← f a; bs ← mapM f l'; mret (b :: bs)
  end.

(** What the program is given by its surroundings:
    - how [Path(s).resolve()] maps a string to an absolute path (it
      follows symbolic links, and raises on a string it cannot handle);
      resolution is not counted among the operations of [fs_op];
    - [Path.cwd().resolve()];
    - the text [str(e)] of an error of the operating system or of the
      UTF-8 codec, given its class and what it is about;
    - the order in which the operating system lists a directory: the
      entries come sorted by this rank. *)
Record PathEnv : Type := {
  resolve : string -> res path;
  cwd : path;
  strerror : exn_class -> string -> string;
  entry_rank : path -> nat
}.

(** An error of the operating system about the path [p]. *)
Definition os_error (env : PathEnv) (cls : exn_class) (p : path) : exn :=
  Exn cls (strerror env cls (path_str p)).

(** [p.exists()]. *)
Definition path_exists (p : path) : M bool :=
  log (OpExists p);; fs ← get_files;
  mret (match node_at fs p with Some _ => true | None => false end).

(** [p.is_file()]. *)
Definition is_file (p : path) : M bool :=
  log (OpIsFile p);; fs ← get_files;
  mret (match node_at fs p with Some (File _) => true | _ => false end).

(** [p.is_dir()]. *)
Definition is_dir (p : path) : M bool :=
  log (OpIsDir p);; fs ← get_files;
  mret (match node_at fs p with Some Dir => true | _ => false end).

(** Decoding the bytes of a file read in text mode with
    [encoding="utf-8"]: strict UTF-8, then universal newlines. *)
Definition decode_text (env : PathEnv) (bytes : string) : res string :=
  if Str.utf8_valid bytes then Ok (Str.universal_newlines bytes)
  else Raise (Exn UnicodeDecodeError (strerror env UnicodeDecodeError bytes)).

(** Encoding a [str] written in text mode with [encoding="utf-8"]: a
    lone surrogate cannot be encoded. A newline is written as
    [os.linesep], which is LF itself on POSIX. *)
Definition encode_text (env : PathEnv) (text : string) : res string :=
  if Str.utf8_valid text then Ok text
  else Raise (Exn UnicodeEncodeError (strerror env UnicodeEncodeError text)).

(** [with open(p, "r", encoding="utf-8") as f: f.read()]. *)
Definition read_text (env : PathEnv) (p : path) : M string :=
  log (OpRead p);; fs ← get_files;
  match node_at fs p with
  | Some (File bytes) => lift (decode_text env bytes)
  | Some Dir => raise (os_error env IsADirectoryError p)
  | None => raise (os_error env FileNotFoundError p)
  end.

(** [open(p, "w", encoding="utf-8")]: an existing file is truncated,
    a missing one is created when its parent is a directory. *)
Definition open_w (env : PathEnv) (p : path) : M unit :=
  log (OpWrite p);; fs ← get_files;
  match node_at fs p with
  | Some (File _) => put_files (<[p := File ""]> fs)
  | Some Dir => raise (os_error env IsADirectoryError p)
  | None =>
      match node_at fs (parent p) with
      | Some Dir => put_files (<[p := File ""]> fs)
      | Some (File _) => raise (os_error env NotADirectoryError p)
      | None => raise (os_error env FileNotFoundError p)
      end
  end.

(** [f.write(content)] on the file just opened at [p]: the whole text
    is encoded before anything reaches the file. *)
Definition write (env : PathEnv) (p : path) (content : pyval) : M unit :=
  match content with
  | VStr text =>
      bytes ← lift (encode_text env text);
      fs ← get_files; put_files (<[p := File bytes]> fs)
  | _ => raise (Exn TypeError ("write() argument must be str, not " +:+ py_type_name content))
  end.

(** [with open(p, "w", encoding="utf-8") as f: f.write(content)]. *)
Definition write_text (env : PathEnv) (p : path) (content : pyval) : M unit :=
  open_w env p;; write env p content.

(** The directories [target.mkdir(parents=True, exist_ok=True)] leaves
    behind, from the root down: [done] is reached, [rest] is still to
    go. A regular file stops it: at the place of [target] itself the
    error is that the file exists, above it that it is not a
    directory; either way the error is about [target]. *)
Fixpoint mkdirs (env : PathEnv) (target : path) (fs : gmap path node)
    (done : path) (rest : list string) : res (gmap path node) :=
  match rest with
  | [] => Ok fs
  | c :: rest' =>
      let q := done ++ [c] in
      match fs !! q with
      | Some (File _) =>
          Raise (os_error env (match rest' with
                               | [] => FileExistsError
                               | _ => NotADirectoryError
                               end) target)
      | _ => mkdirs env target (<[q := Dir]> fs) q rest'
      end
  end.

(** The paths [mkdirs] visits. *)
Fixpoint way (done : path) (rest : list string) : list path :=
  match rest with
  | [] => []
  | c :: rest' => (done ++ [c]) :: way (done ++ [c]) rest'
  end.

(** [p.mkdir(parents=True, exist_ok=True)]. *)
Definition mkdir_parents (env : PathEnv) (p : path) : M unit :=
  log (OpMkdir p);; fs ← get_files;
  match mkdirs env p fs [] p with
  | Ok fs' => put_files fs'
  | Raise e => raise e
  end.

(** The entries directly below [p], in no particular order. *)
Definition children (fs : gmap path node) (p : path) : list path :=
  List.filter (fun q => bool_decide (q <> [] /\ parent q = p))
              (map fst (map_to_list fs)).

(** The entries directly below [p] in the order the operating system
    lists them. *)
Definition listed_before (env : PathEnv) : relation path :=
  fun q1 q2 => (entry_rank env q1 <= entry_rank env q2)%nat.

#[global] Instance listed_before_dec (env : PathEnv) : RelDecision (listed_before env).
Proof. intros q1 q2. unfold listed_before. apply _. Defined.

Definition listing (env : PathEnv) (fs : gmap path node) (p : path) : list path :=
  merge_sort (listed_before env) (children fs p).

(** [list(p.iterdir())]. *)
Definition iterdir (env : PathEnv) (p : path) : M (list path) :=
  log (OpIterdir p);; fs ← get_files;
  match node_at fs p with
  | Some Dir => mret (listing env fs p)
  | Some (File _) => raise (os_error env NotADirectoryError p)
  | None => raise (os_error env FileNotFoundError p)
  end.

(** [Path(v).resolve()] for an argument of any type. *)
Definition Path_resolve (env : PathEnv) (v : pyval) : M path :=
  match v with
  | VStr s => lift (resolve env s)
  | _ => raise (Exn TypeError ("expected str, bytes or os.PathLike object, not "
                               +:+ py_type_name v))
  end.

(** *** A resolver for a file system without symbolic links *)

Fixpoint split_on (sep : ascii) (s : string) : list string :=
  match s with
  | "" => [""]
  | String c s' =>
      if Ascii.eqb c sep then "" :: split_on sep s'
      else match split_on sep s' with
           | [] => [String c ""]
           | h :: t => String c h :: t
           end
  end.

Definition normalize (base : path) (parts : list string) : path :=
  fold_left (fun acc c =>
               if String.eqb c "" || String.eqb c "." then acc
               else if String.eqb c ".." then removelast acc
               else acc ++ [c]) parts base.

Definition lexical_resolve (wd : path) (s : string) : res path :=
  if Str.contains (String "000"%char "") s
  then Raise (Exn ValueError "embedded null byte")
  else Ok (normalize (if Str.startswith "/" s then [] else wd) (split_on "/"%char s)).

(** Error texts in the manner of CPython on Linux, for a subject
    without quotes or backslashes. The text of a codec error goes on
    with the offending bytes and their place, which are left out. *)
Definition posix_strerror (cls : exn_class) (subject : string) : string :=
  match cls with
  | FileNotFoundError => "[Errno 2] No such file or directory: '" +:+ subject +:+ "'"
  | FileExistsError => "[Errno 17] File exists: '" +:+ subject +:+ "'"
  | NotADirectoryError => "[Errno 20] Not a directory: '" +:+ subject +:+ "'"
  | IsADirectoryError => "[Errno 21] Is a directory: '" +:+ subject +:+ "'"
  | UnicodeDecodeError => "'utf-8' codec can't decode bytes"
  | UnicodeEncodeError => "'utf-8' codec can't encode characters"
  | _ => "error"
  end.

(** The place of [q] in the list [l], the length of [l] when it is
    not there. *)
Fixpoint position (l : list path) (q : path) : nat :=
  match l with
  | [] => 0
  | x :: l' => if decide (q = x) then 0 else S (position l' q)
  end.

(** An environment without symbolic links that lists the entries of
    [order] in this order, and before all others. *)
Definition lexical_env (wd : path) (order : list path) : PathEnv :=
  {| resolve := lexical_resolve wd; cwd := wd;
     strerror := posix_strerror; entry_rank := position order |}.

End Fs.
Export Fs.

Ltac unfold_m :=
  unfold mbind, M_bind, mret, M_ret, try_except, lift, raise, log, logged,
         get_files, put_files in *.

(* ================================================================== *)
(** ** The tool functions *)
(* ================================================================== *)

(** The string a tool returns. The tools build it in three ways, kept
    apart here: plain text, [json.dumps({"error": msg})] and, for
    [list_files], [json.dumps(names)]. *)
Inductive tool_output : Type :=
| Text (s : string)
| ErrorJson (msg : string)
| ArrayJson (names : list string).

(** [input_data.get(key)]. *)
Definition dict_get (d : gmap string pyval) (key : string) : pyval :=
  default VNone (d !! key).

(** [input_data.get(key, dflt)]. *)
Definition dict_get_default (d : gmap string pyval) (key : string) (dflt : pyval) : pyval :=
  default dflt (d !! key).

(** [t] between double quotes. *)
Definition quoted (t : string) : string :=
  String (ascii_of_nat 34) t +:+ String (ascii_of_nat 34) "".

(** [old in s] for [old] of any type. *)
Definition py_in (old : pyval) (s : string) : res bool :=
  match old with
  | VStr o => Ok (Str.contains o s)
  | _ => Raise (Exn TypeError ("'in <string>' requires string as left operand, not "
                               +:+ py_type_name old))
  end.

(** [s + v]. *)
Definition py_concat (s : string) (v : pyval) : res string :=
  match v with
  | VStr t => Ok (s +:+ t)
  | _ => Raise (Exn TypeError ("can only concatenate str (not " +:+ quoted (py_type_name v)
                               +:+ ") to str"))
  end.

(** [s.replace(old, new)] for arguments of any type. *)
Definition py_replace (s : string) (old new : pyval) : res string :=
  match old, new with
  | VStr o, VStr n => Ok (Str.replace o n s)
  | VStr _, _ => Raise (Exn TypeError ("replace() argument 2 must be str, not "
                                       +:+ py_type_name new))
  | _, _ => Raise (Exn TypeError ("replace() argument 1 must be str, not "
                                  +:+ py_type_name old))
  end.

Definition access_denied_msg (path_str : pyval) : string :=
  "Access to path '" +:+ py_str path_str +:+
  "' is not allowed. Only paths within the current working directory are permitted.".

Definition access_denied_creation_msg (path_str : pyval) : string :=
  "Access to path '" +:+ py_str path_str +:+
  "' is not allowed for creation. Only paths within the current working directory are permitted.".

Definition invalid_input_msg : string :=
  "Invalid input: 'path' and 'new_str' are required.".

Definition must_differ_msg : string :=
  "Invalid input: 'old_str' and 'new_str' must be different if 'old_str' is provided.".

Section Tools.

Variable env : PathEnv.

(** [not str(p).startswith(str(Path.cwd().resolve()))]. *)
Definition escapes (p : path) : bool :=
  negb (Str.startswith (path_str (cwd env)) (path_str p)).

Definition read_file_tool (input_data : gmap string pyval) : M tool_output :=
  let path_str := dict_get input_data "path" in
  if negb (truthy path_str) then mret (ErrorJson "Path is required.")
  else
    try_except
      (file_path ← Path_resolve env path_str;
       if escapes file_path then mret (ErrorJson (access_denied_msg path_str))
       else
         is_f ← is_file file_path;
         if negb is_f
         then mret (ErrorJson ("File not found or is not a regular file: " +:+ py_str path_str))
         else
           content ← read_text env file_path;
           mret (Text content))
      (fun e => mret (ErrorJson ("Error reading file " +:+ py_str path_str +:+ ": " +:+ exn_text e))).

Definition list_files_tool (input_data : gmap string pyval) : M tool_output :=
  let path_str := dict_get_default input_data "path" (VStr ".") in
  try_except
    (base_path ← Path_resolve env path_str;
     if escapes base_path then mret (ErrorJson (access_denied_msg path_str))
     else
       ex ← path_exists base_path;
       if negb ex then mret (ErrorJson ("Path not found: " +:+ py_str path_str))
       else
         items ← iterdir env base_path;
         files_and_dirs ← mapM (fun item : path =>
                                  (d ← is_dir item;
                                   mret (if d : bool then name item +:+ "/" else name item)) : M string)
                               items;
         mret (ArrayJson files_and_dirs))
    (fun e => mret (ErrorJson ("Error listing files in " +:+ py_str path_str +:+ ": " +:+ exn_text e))).

Definition _create_new_file (file_path_str content : pyval) : M tool_output :=
  try_except
    (p ← Path_resolve env file_path_str;
     if escapes p then mret (ErrorJson (access_denied_creation_msg file_path_str))
     else
       mkdir_parents env (parent p);;
       write_text env p content;;
       mret (Text ("Successfully created file " +:+ py_str file_path_str)))
    (fun e => mret (ErrorJson ("Failed to create file " +:+ py_str file_path_str +:+ ": " +:+ exn_text e))).

Definition edit_file_tool (input_data : gmap string pyval) : M tool_output :=
  let path_str := dict_get input_data "path" in
  let old_str := dict_get input_data "old_str" in
  let new_str := dict_get input_data "new_str" in
  if is_none path_str || is_none new_str then mret (ErrorJson invalid_input_msg)
  else if negb (is_none old_str) && py_eq old_str new_str then mret (ErrorJson must_differ_msg)
  else
    file_path ← Path_resolve env path_str;
    if escapes file_path then mret (ErrorJson (access_denied_msg path_str))
    else
      try_except
        (ex ← path_exists file_path;
         if negb ex then
           if py_eq old_str (VStr "") || is_none old_str
           then _create_new_file path_str new_str
           else mret (ErrorJson ("File not found: " +:+ py_str path_str +:+
                                 ", and 'old_str' was provided, so not creating a new file."))
         else
           is_f ← is_file file_path;
           if negb is_f
           then mret (ErrorJson ("Path exists but is not a file: " +:+ py_str path_str))
           else
             original_content ← read_text env file_path;
             found ← lift (py_in old_str original_content);
             if negb found
             then mret (ErrorJson ("'old_str' not found in file " +:+ py_str path_str +:+ "."))
             else
               modified_content ←
                 (if is_none old_str || py_eq old_str (VStr "")
                  then lift (py_concat original_content new_str)
                  else lift (py_replace original_content old_str new_str));
               write_text env file_path (VStr modified_content);;
               mret (Text "OK"))
        (fun e => mret (ErrorJson ("Error editing file " +:+ py_str path_str +:+ ": " +:+ exn_text e))).

End Tools.

(* ================================================================== *)
(** ** Tool definitions and the agent *)
(* ================================================================== *)

(** [ToolDefinition]; the JSON schema of the parameters is data for the
    model only and is not represented. *)
Record ToolDefinition : Type := {
  tool_name : string;
  description : string;
  function : gmap string pyval -> M tool_output
}.

(** The [arguments] of a tool-call request: a dictionary, or any other
    value ([isinstance(tool_arguments, dict)] tells them apart). *)
Inductive arguments : Type :=
| ArgDict (d : gmap string pyval)
| ArgOther (v : pyval).

(** [tool_call_request['function']]. *)
Record tool_call : Type := {
  call_name : string;
  call_arguments : arguments
}.

(** [ollama_response['message']]: [content] and [tool_calls] are what
    [.get] returns, [None] when the key is absent. *)
Record message : Type := {
  content : option string;
  tool_calls : option (list tool_call)
}.

(** The content of a turn with role "tool": the string the tool gave,
    or [json.dumps({"error": ..., "received_arguments": ...})]. *)
Inductive tool_content : Type :=
| ResultString (o : tool_output)
| ArgumentErrorJson (error_message received_arguments : string).

(** One entry of the conversation list. *)
Inductive turn : Type :=
| UserTurn (text : string)
| AssistantTurn (m : message)
| ToolTurn (c : tool_content).

(** What the process does towards the user and the model, in order. *)
Inductive event : Type :=
| Banner
| Prompt
| Exiting
| Inference (messages : list turn)
| ApiError (e : exn)
| AssistantText (text : string)
| ToolNotFound (name : string)
| ToolRaised (name : string) (e : exn)
| BadArguments (name : string) (v : pyval)
| ToolCallLine (name : string) (d : gmap string pyval)
| ToolResultLine (o : tool_output).

(** What one pass through the loop is given from outside: the line
    [input] would return ([None] on end of input or interrupt) and the
    answer [ollama.chat] would give to the messages it is sent. *)
Record oracle : Type := {
  user_message : option string;
  chat : list turn -> res message
}.

Section ToolTable.

Variable env : PathEnv.

Definition READ_FILE_DEFINITION : ToolDefinition :=
  {| tool_name := "read_file";
     description := "Read the contents of a given relative file path.";
     function := read_file_tool env |}.

Definition LIST_FILES_DEFINITION : ToolDefinition :=
  {| tool_name := "list_files";
     description := "List files and directories at a given path.";
     function := list_files_tool env |}.

Definition EDIT_FILE_DEFINITION : ToolDefinition :=
  {| tool_name := "edit_file";
     description := "Make edits to a text file.";
     function := edit_file_tool env |}.

Definition available_tools : list ToolDefinition :=
  [READ_FILE_DEFINITION; LIST_FILES_DEFINITION; EDIT_FILE_DEFINITION].

End ToolTable.

Module Agent.

Record t : Type := {
  tools : list ToolDefinition;
  tool_map : gmap string ToolDefinition;
  model_name : string
}.

(** [__init__], once the server has answered:
    [{tool.name: tool for tool in self.tools}] keeps the last tool of
    a name. *)
Definition init (tools : list ToolDefinition) (model_name : string) : t :=
  {| tools := tools;
     tool_map := fold_left (fun m tool => <[tool_name tool := tool]> m) tools ∅;
     model_name := model_name |}.

(** The file system with its log, and the trace of events. *)
Record machine : Type := {
  fsys : world;
  trace : list event
}.

Definition emit (ev : event) (m : machine) : machine :=
  {| fsys := fsys m; trace := trace m ++ [ev] |}.

(** The trace of [m'] continues the trace of [m], and the user is not
    prompted on the way. *)
Definition extends (m m' : machine) : Prop :=
  exists evs, trace m' = trace m ++ evs /\ Prompt ∉ evs.

(** The variables of [run]. *)
Record loop_state : Type := {
  conversation : list turn;
  needs_user_input : bool;
  mach : machine
}.

Inductive outcome : Type :=
| Continue (st : loop_state)
| Break (st : loop_state).

Definition final (o : outcome) : loop_state :=
  match o with Continue st | Break st => st end.

Section Methods.

Variable self : t.

(** [get_user_message]. *)
Definition get_user_message (o : oracle) (m : machine) : option string * machine :=
  (user_message o, emit Prompt m).

(** [run_inference]: the response, or [None] after reporting the
    failure. *)
Definition run_inference (o : oracle) (conversation_history : list turn) (m : machine)
  : option message * machine :=
  let m := emit (Inference conversation_history) m in
  match chat o conversation_history with
  | Ok response => (Some response, m)
  | Raise e => (None, emit (ApiError e) m)
  end.

(** [execute_tool]. *)
Definition execute_tool (name : string) (tool_input : gmap string pyval) (m : machine)
  : tool_output * machine :=
  match tool_map self !! name with
  | None =>
      (ErrorJson ("Tool '" +:+ name +:+ "' not found by agent."),
       emit (ToolNotFound name) m)
  | Some tool_to_execute =>
      match function tool_to_execute tool_input (fsys m) with
      | (Ok result_string, w) => (result_string, {| fsys := w; trace := trace m |})
      | (Raise e, w) =>
          (ErrorJson ("Agent failed to execute tool " +:+ name +:+ ": " +:+ exn_text e),
           emit (ToolRaised name e) {| fsys := w; trace := trace m |})
      end
  end.

(** The body of [for tool_call_request in raw_tool_calls]: the
    content of the tool-result message it appends. *)
Definition handle_tool_call (request : tool_call) (m : machine) : tool_content * machine :=
  let tool_name := call_name request in
  match call_arguments request with
  | ArgOther v =>
      (ArgumentErrorJson
         ("Tool arguments for '" +:+ tool_name +:+ "' are not in the expected dictionary format.")
         (py_str v),
       emit (BadArguments tool_name v) m)
  | ArgDict tool_input_data =>
      let m := emit (ToolCallLine tool_name tool_input_data) m in
      let '(result_string_content, m) := execute_tool tool_name tool_input_data m in
      (ResultString result_string_content, emit (ToolResultLine result_string_content) m)
  end.

(** The whole [for] loop: [tool_result_messages_for_ollama]. *)
Fixpoint run_tool_calls (raw_tool_calls : list tool_call) (m : machine)
  : list turn * machine :=
  match raw_tool_calls with
  | [] => ([], m)
  | request :: rest =>
      let '(c, m) := handle_tool_call request m in
      let '(results, m) := run_tool_calls rest m in
      (ToolTurn c :: results, m)
  end.

(** The loop body from [run_inference] on. *)
Definition inference_phase (o : oracle) (conversation : list turn) (m : machine) : outcome :=
  match run_inference o conversation m with
  | (None, m) =>
      Continue {| conversation := conversation; needs_user_input := true; mach := m |}
  | (Some assistant_turn_message, m) =>
      let conversation := conversation ++ [AssistantTurn assistant_turn_message] in
      let m :=
        match content assistant_turn_message with
        | Some text =>
            if truthy (VStr text) then emit (AssistantText (Str.strip text)) m else m
        | None => m
        end in
      match tool_calls assistant_turn_message with
      | Some ((_ :: _) as raw_tool_calls) =>
          let '(results, m) := run_tool_calls raw_tool_calls m in
          Continue {| conversation := conversation ++ results;
                      needs_user_input := false; mach := m |}
      | _ =>
          Continue {| conversation := conversation; needs_user_input := true; mach := m |}
      end
  end.

(** One pass through the body of [while True]. *)
Definition iteration (o : oracle) (st : loop_state) : outcome :=
  if needs_user_input st then
    match get_user_message o (mach st) with
    | (None, m) =>
        Break {| conversation := conversation st; needs_user_input := true;
                 mach := emit Exiting m |}
    | (Some user_input, m) =>
        if negb (truthy (VStr (Str.strip user_input)))
        then Continue {| conversation := conversation st; needs_user_input := true;
                         mach := m |}
        else inference_phase o (conversation st ++ [UserTurn user_input]) m
    end
  else inference_phase o (conversation st) (mach st).

(** The messages a pass sends to the model, when it gets that far:
    after a prompt, the conversation with the user's line, unless
    the input ended or the line was blank. *)
Definition messages_sent (o : oracle) (st : loop_state) : option (list turn) :=
  if needs_user_input st then
    match user_message o with
    | Some user_input =>
        if truthy (VStr (Str.strip user_input))
        then Some (conversation st ++ [UserTurn user_input])
        else None
    | None => None
    end
  else Some (conversation st).

(** The machine at the moment the model is called. *)
Definition before_inference (st : loop_state) : machine :=
  if needs_user_input st then emit Prompt (mach st) else mach st.

(** What it means to answer one request: the file system goes from
    [w] to [w'] and the tool-result message has content [c]. A
    request with a dictionary of arguments for a registered tool is
    answered by running that tool's function on it. *)
Inductive answers : tool_call -> world -> tool_content -> world -> Prop :=
| answers_ran name d tool w r w' :
    tool_map self !! name = Some tool ->
    function tool d w = (Ok r, w') ->
    answers {| call_name := name; call_arguments := ArgDict d |} w (ResultString r) w'
| answers_raised name d tool w e w' :
    tool_map self !! name = Some tool ->
    function tool d w = (Raise e, w') ->
    answers {| call_name := name; call_arguments := ArgDict d |} w
            (ResultString
               (ErrorJson ("Agent failed to execute tool " +:+ name +:+ ": " +:+ exn_text e)))
            w'
| answers_unknown name d w :
    tool_map self !! name = None ->
    answers {| call_name := name; call_arguments := ArgDict d |} w
            (ResultString (ErrorJson ("Tool '" +:+ name +:+ "' not found by agent.")))
            w
| answers_not_dict name v w :
    answers {| call_name := name; call_arguments := ArgOther v |} w
            (ArgumentErrorJson
               ("Tool arguments for '" +:+ name +:+
                "' are not in the expected dictionary format.")
               (py_str v))
            w.

(** The requests are answered one after the other, each in the file
    system the previous one left, one tool turn per request. *)
Inductive answered_in_order : list tool_call -> world -> list turn -> world -> Prop :=
| answered_nil w : answered_in_order [] w [] w
| answered_cons request rest w c w1 results w2 :
    answers request w c w1 ->
    answered_in_order rest w1 results w2 ->
    answered_in_order (request :: rest) w (ToolTurn c :: results) w2.

(** [conversation = []; needs_user_input = True] and the banner. *)
Definition start (w : world) : loop_state :=
  {| conversation := []; needs_user_input := true;
     mach := {| fsys := w; trace := [Banner] |} |}.

(** The loop over the passes the environment script provides. *)
Fixpoint run_from (script : list oracle) (st : loop_state) : outcome :=
  match script with
  | [] => Continue st
  | o :: script' =>
      match iteration o st with
      | Continue st' => run_from script' st'
      | Break st' => Break st'
      end
  end.

Definition run (script : list oracle) (w : world) : outcome :=
  run_from script (start w).

End Methods.

End Agent.

(* ================================================================== *)
(** ** Vocabulary for further properties *)
(* ================================================================== *)

(** A block that leaves the files as they are (it may add to the log). *)
Definition keeps_files {A} (m : M A) : Prop :=
  forall w, files (snd (m w)) = files w.

(** A block that changes the files at most at paths satisfying [P]. *)
Definition touches_only {A} (P : path -> Prop) (m : M A) : Prop :=
  forall w q, ~ P q -> files (snd (m w)) !! q = files w !! q.

(** The entry [list_files] gives for a path: its name, with a trailing
    separator when the path is a directory. *)
Definition entry_name (fs : gmap path node) (q : path) : string :=
  match node_at fs q with
  | Some Dir => name q +:+ "/"
  | _ => name q
  end.

(** The text that [edit_file] is about to write to an existing file. *)
Definition edited_text (old_str new_str : pyval) (original_content : string) : res string :=
  if is_none old_str || py_eq old_str (VStr "")
  then py_concat original_content new_str
  else py_replace original_content old_str new_str.

(** Only whitespace characters (or nothing at all). *)
Definition all_whitespace (chars : list string) : Prop :=
  Forall (fun c => c ∈ Str.whitespace) chars.

(** The string made of the characters, in their order. *)
Definition text_of (chars : list string) : string := foldr String.app "" chars.

(** The number of tool calls an assistant message carries. *)
Definition requested (m : message) : nat :=
  match tool_calls m with
  | Some calls => length calls
  | None => 0
  end.

(** Every assistant message in the conversation is followed by exactly
    as many tool turns as it carries tool calls, and tool turns occur
    nowhere else. [pending] counts the tool turns still due. *)
Fixpoint tool_balanced (pending : nat) (conv : list turn) : bool :=
  match conv with
  | [] => Nat.eqb pending 0
  | UserTurn _ :: rest => Nat.eqb pending 0 && tool_balanced 0 rest
  | AssistantTurn m :: rest => Nat.eqb pending 0 && tool_balanced (requested m) rest
  | ToolTurn _ :: rest =>
      match pending with
      | S k => tool_balanced k rest
      | O => false
      end
  end.

(** A model that never asks for a tool. *)
Definition asks_no_tools (o : oracle) : Prop :=
  forall conv msg, chat o conv = Ok msg -> requested msg = 0.

(* ================================================================== *)
(** ** A small installation to run the program on *)
(* ================================================================== *)

Module Example.

(** The working directory [/home/u/proj]. *)
Definition wd : path := ["home"; "u"; "proj"].

(** The directory lists [sub] before [a.txt]. *)
Definition env : PathEnv :=
  lexical_env wd [["home"; "u"; "proj"; "sub"]; ["home"; "u"; "proj"; "a.txt"]].

(** [/home/u/proj] holds [a.txt] (content "aa") and the directory
    [sub]; next to it lies [/home/u/proj-evil] with the file [s]. *)
Definition fs0 : gmap path node :=
  <[ ["home"; "u"; "proj"; "a.txt"] := File "aa" ]>
  (<[ ["home"; "u"; "proj"; "sub"] := Dir ]>
  (<[ ["home"; "u"; "proj"] := Dir ]>
  (<[ ["home"; "u"; "proj-evil"; "s"] := File "secret" ]>
  (<[ ["home"; "u"; "proj-evil"] := Dir ]>
  (<[ ["home"; "u"] := Dir ]>
  (<[ ["home"] := Dir ]> ∅)))))).

Definition w0 : world := {| files := fs0; oplog := [] |}.

Definition a_txt : path := ["home"; "u"; "proj"; "a.txt"].

(** The same with [a.txt] holding a line that ends in CR LF. *)
Definition w_crlf : world :=
  {| files := <[a_txt := File (String "a" (String Str.CR (String Str.LF "b")))]> fs0;
     oplog := [] |}.

(** The lone surrogate U+DC80, which a model can send as a JSON escape. *)
Definition lone_surrogate : string :=
  String (ascii_of_nat 237) (String (ascii_of_nat 178) (String (ascii_of_nat 128) "")).

Definition args (l : list (string * pyval)) : gmap string pyval := list_to_map l.

Definition agent : Agent.t := Agent.init (available_tools env) "qwen3:8b".

Definition read_request : tool_call :=
  {| call_name := "read_file"; call_arguments := ArgDict (args [("path", VStr "a.txt")]) |}.

Definition edit_request : tool_call :=
  {| call_name := "edit_file";
     call_arguments :=
       ArgDict (args [("path", VStr "a.txt"); ("old_str", VStr "a"); ("new_str", VStr "b")]) |}.

Definition bad_request : tool_call :=
  {| call_name := "read_file"; call_arguments := ArgOther (VStr "a.txt") |}.

Definition tool_message : message :=
  {| content := Some ""; tool_calls := Some [edit_request; read_request; bad_request] |}.

Definition text_message : message :=
  {| content := Some " done "; tool_calls := None |}.

Definition down : exn := Exn ConnectionError "connection refused".

(** The user types "fix it" and the model asks for tools. *)
Definition asks_tools : oracle :=
  {| user_message := Some "fix it"; chat := fun _ => Ok tool_message |}.

(** The model answers in plain text; the user would type "next". *)
Definition answers_text : oracle :=
  {| user_message := Some "next"; chat := fun _ => Ok text_message |}.

(** The user types "hi" and the server cannot be reached. *)
Definition server_down : oracle :=
  {| user_message := Some "hi"; chat := fun _ => Raise down |}.

(** End of input. *)
Definition eof : oracle :=
  {| user_message := None; chat := fun _ => Raise down |}.

(** The user types a space, a tab and a no-break space (U+00A0). *)
Definition blank_line : oracle :=
  {| user_message := Some (text_of [" "; Str.encode_char 9; Str.encode_char 160]);
     chat := fun _ => Ok text_message |}.

End Example.

(* ================================================================== *)
(** * Properties *)
(* ================================================================== *)

(** ** Strings *)

Example startswith_ex : Str.startswith "/home/u" "/home/u/a.txt" = true.
Proof. reflexivity. Qed.

Example contains_ex : Str.contains "lo w" "hello world" = true.
Proof. reflexivity. Qed.

Example replace_ex : Str.replace "ab" "X" "abcabab-" = "XcXX-".
Proof. reflexivity. Qed.

Example replace_overlap_ex : Str.replace "aa" "b" "aaa" = "ba".
Proof. reflexivity. Qed.

Example replace_empty_ex : Str.replace "" "-" "abc" = "-a-b-c-".
Proof. reflexivity. Qed.

Example count_ex : Str.count "aa" "aaaa-aa" = 3.
Proof. reflexivity. Qed.

Example strip_ex : Str.strip "  hi there " = "hi there".
Proof. reflexivity. Qed.

Module StrFacts.
Import Str.

Lemma append_nil_l (s : string) : "" +:+ s = s.
Proof. reflexivity. Qed.

Lemma append_cons (a : ascii) (s t : string) : String a s +:+ t = String a (s +:+ t).
Proof. reflexivity. Qed.

Lemma append_nil_r (s : string) : s +:+ "" = s.
Proof. induction s as [|a s IH]; [reflexivity | now rewrite append_cons, IH]. Qed.

Lemma append_assoc (a b c : string) : (a +:+ b) +:+ c = a +:+ (b +:+ c).
Proof. induction a as [|x a IH]; [reflexivity | now rewrite !append_cons, IH]. Qed.

Lemma length_append (a b : string) :
  String.length (a +:+ b) = String.length a + String.length b.
Proof.
  induction a as [|x a IH]; [reflexivity |].
  rewrite append_cons. cbn [String.length]. now rewrite IH.
Qed.

Lemma startswith_nil (s : string) : startswith "" s = true.
Proof. now destruct s. Qed.

Lemma startswith_append (p r : string) : startswith p (p +:+ r) = true.
Proof.
  induction p as [|a p IH]; [apply startswith_nil |].
  rewrite append_cons. cbn [startswith]. now rewrite Ascii.eqb_refl.
Qed.

(** [startswith] is exactly "has this prefix". *)
Lemma startswith_iff (p s : string) :
  startswith p s = true <-> exists r, s = p +:+ r.
Proof.
  split.
  - revert s. induction p as [|a p IH]; intros s H.
    + now exists s.
    + destruct s as [|b s]; cbn [startswith] in H; [discriminate |].
      destruct (Ascii.eqb_spec a b) as [->|]; [| discriminate].
      destruct (IH _ H) as [r ->]. now exists r.
  - intros [r ->]. apply startswith_append.
Qed.

Lemma drop_append (p r : string) : drop (String.length p) (p +:+ r) = r.
Proof.
  induction p as [|a p IH]; [now destruct r |].
  rewrite append_cons. exact IH.
Qed.

Lemma contains_nil (s : string) : contains "" s = true.
Proof. destruct s; reflexivity. Qed.

(** [old in s] holds exactly when [s] splits around a copy of [old]. *)
Lemma contains_iff (old s : string) :
  contains old s = true <-> exists pre post, s = pre +:+ old +:+ post.
Proof.
  split.
  - induction s as [|c s IH]; cbn [contains]; intros H.
    + rewrite orb_false_r in H. apply startswith_iff in H as [r ->].
      now exists "", r.
    + apply orb_true_iff in H as [H|H].
      * apply startswith_iff in H as [r ->]. now exists "", r.
      * destruct (IH H) as (pre & post & ->). now exists (String c pre), post.
  - intros (pre & post & ->). induction pre as [|c pre IH].
    + rewrite append_nil_l.
      destruct (old +:+ post) eqn:E; cbn [contains];
        rewrite <- E, startswith_append; reflexivity.
    + rewrite append_cons. cbn [contains]. rewrite IH. apply orb_true_r.
Qed.

Lemma drop_nil (k : nat) : drop k "" = "".
Proof. now destruct k. Qed.

Lemma replace_from_skip (old new : string) (k : nat) (s : string) :
  replace_from old new k s = replace_from old new 0 (drop k s).
Proof.
  revert k. induction s as [|c s IH]; intros k.
  - now rewrite drop_nil.
  - destruct k as [|k]; [reflexivity |]. cbn [replace_from drop]. apply IH.
Qed.

Lemma count_from_skip (old : string) (k : nat) (s : string) :
  count_from old k s = count_from old 0 (drop k s).
Proof.
  revert k. induction s as [|c s IH]; intros k.
  - now rewrite drop_nil.
  - destruct k as [|k]; [reflexivity |]. cbn [count_from drop]. apply IH.
Qed.

Lemma drop_length_cons (old : string) (c : ascii) (s : string) :
  old <> "" -> drop (String.length old) (String c s) = drop (String.length old - 1) s.
Proof.
  destruct old as [|a old]; [congruence |]. intros _.
  cbn [String.length drop Nat.sub]. now rewrite Nat.sub_0_r.
Qed.

Lemma but_last_prefix (s : string) : exists t, s = but_last s +:+ t.
Proof.
  induction s as [|c r IH]; [now exists "" |]. cbn [but_last].
  destruct r as [|c' r']; [now exists (String c "") |].
  destruct IH as [t Ht]. exists t. rewrite append_cons. now rewrite <- Ht.
Qed.

Lemma length_but_last (s : string) :
  s <> "" -> S (String.length (but_last s)) = String.length s.
Proof.
  induction s as [|c r IH]; [congruence |]. intros _. cbn [but_last].
  destruct r as [|c' r']; [reflexivity |].
  cbn [String.length] in *. rewrite IH by congruence. reflexivity.
Qed.

Lemma append_split (a b c d : string) :
  a +:+ b = c +:+ d ->
  String.length a <= String.length c ->
  exists e, c = a +:+ e /\ b = e +:+ d.
Proof.
  revert c. induction a as [|x a IH]; intros c H Hlen.
  - exists c. split; [reflexivity | exact H].
  - destruct c as [|y c]; [cbn in Hlen; lia |].
    rewrite !append_cons in H. injection H as -> H.
    destruct (IH c H) as (e & -> & ->); [cbn in Hlen; lia |].
    exists e. now rewrite append_cons.
Qed.

Lemma append_inv_head (a b c : string) : a +:+ b = a +:+ c -> b = c.
Proof.
  induction a as [|x a IH]; [trivial |].
  rewrite !append_cons. intros [= H]. now apply IH.
Qed.

Section NonEmptyOld.

Variables old new : string.
Hypothesis old_nonempty : old <> "".

Lemma replace_nonempty (s : string) : replace old new s = replace_from old new 0 s.
Proof.
  unfold replace. destruct (String.eqb_spec old ""); [contradiction | reflexivity].
Qed.

(** The recursion [str.replace] follows: at a match, emit [new] and
    go on after the match; otherwise keep the character. *)
Lemma replace_unfold (c : ascii) (s : string) :
  replace old new (String c s) =
    if startswith old (String c s)
    then new +:+ replace old new (drop (String.length old) (String c s))
    else String c (replace old new s).
Proof.
  rewrite !replace_nonempty. cbn [replace_from].
  destruct (startswith old (String c s)); [| reflexivity].
  rewrite (replace_from_skip _ _ (String.length old - 1)).
  now rewrite drop_length_cons.
Qed.

Lemma replace_nil : replace old new "" = "".
Proof. now rewrite replace_nonempty. Qed.

Lemma count_unfold (c : ascii) (s : string) :
  count old (String c s) =
    if startswith old (String c s)
    then S (count old (drop (String.length old) (String c s)))
    else count old s.
Proof.
  unfold count. cbn [count_from].
  destruct (startswith old (String c s)); [| reflexivity].
  now rewrite count_from_skip, drop_length_cons.
Qed.

(** A match at the front is replaced and the scan goes on behind it. *)
Lemma replace_match (post : string) :
  replace old new (old +:+ post) = new +:+ replace old new post.
Proof.
  destruct (old +:+ post) as [|c s] eqn:E.
  - destruct old; [congruence | discriminate].
  - rewrite replace_unfold, <- E, startswith_append, drop_append. reflexivity.
Qed.

Lemma count_zero_replace (s : string) : count old s = 0 -> replace old new s = s.
Proof.
  induction s as [|c s IH]; [intros _; apply replace_nil |].
  rewrite count_unfold, replace_unfold.
  destruct (startswith old (String c s)); [discriminate |].
  intros H. now rewrite IH.
Qed.

Lemma contains_count (s : string) : contains old s = true -> 1 <= count old s.
Proof.
  induction s as [|c s IH].
  - cbn [contains]. rewrite orb_false_r. intros H.
    apply startswith_iff in H as [r H]. revert H old_nonempty.
    destruct old; [congruence | discriminate].
  - rewrite count_unfold. cbn [contains].
    destruct (startswith old (String c s)); [lia |]. exact IH.
Qed.

Lemma absent_replace (s : string) : contains old s = false -> replace old new s = s.
Proof.
  induction s as [|c s IH]; [intros _; apply replace_nil |].
  rewrite replace_unfold. cbn [contains].
  destruct (startswith old (String c s)); [discriminate |].
  intros H. now rewrite IH.
Qed.

(** With exactly one occurrence, [replace] is the single substitution. *)
Lemma replace_single (s : string) :
  count old s = 1 ->
  exists pre post, s = pre +:+ old +:+ post /\ replace old new s = pre +:+ new +:+ post.
Proof.
  induction s as [|c s IH]; [discriminate |].
  rewrite count_unfold, replace_unfold.
  destruct (startswith old (String c s)) eqn:E.
  - intros H. apply startswith_iff in E as [r E].
    rewrite E, drop_append in *. exists "", r.
    split; [reflexivity |]. rewrite count_zero_replace by lia. reflexivity.
  - intros H. destruct (IH H) as (pre & post & -> & ->).
    exists (String c pre), post. split; reflexivity.
Qed.

Lemma startswith_longer (u r : string) :
  startswith old u = true -> startswith old (u +:+ r) = true.
Proof.
  intros H. apply startswith_iff in H as [t ->].
  rewrite append_assoc. apply startswith_append.
Qed.

Lemma replaced_all_cons (c : ascii) (s r : string) :
  startswith old (String c s) = false ->
  replaced_all old new s r ->
  replaced_all old new (String c s) (String c r).
Proof.
  intros Hs H. inversion H as [u Hu | u rest rest' Hu Hrest]; subst.
  - apply replaced_none. cbn [contains]. now rewrite Hs, Hu.
  - apply (replaced_step old new (String c u) rest rest'); [| assumption].
    rewrite append_cons. cbn [contains]. rewrite Hu, orb_false_r.
    destruct (startswith old (String c (u +:+ but_last old))) eqn:E; [| reflexivity].
    destruct (but_last_prefix old) as [t Ht].
    apply (startswith_longer _ (t +:+ rest)) in E.
    rewrite append_cons, !append_assoc, <- (append_assoc (but_last old)), <- Ht in E.
    congruence.
Qed.

Lemma contains_but_last_false : contains old (but_last old) = false.
Proof.
  destruct (contains old (but_last old)) eqn:E; [| reflexivity].
  apply contains_iff in E as (pre & post & E).
  apply (f_equal String.length) in E. rewrite !length_append in E.
  pose proof (length_but_last old old_nonempty). lia.
Qed.

Lemma contains_nil_false : contains old "" = false.
Proof.
  cbn [contains]. rewrite orb_false_r.
  destruct (startswith old "") eqn:E; [| reflexivity].
  apply startswith_iff in E as [r E]. revert E old_nonempty.
  destruct old; [congruence | discriminate].
Qed.

Lemma replace_replaces_all_bounded (n : nat) :
  forall s, String.length s <= n -> replaced_all old new s (replace old new s).
Proof.
  induction n as [|n IH]; intros s Hlen.
  - destruct s; [| cbn in Hlen; lia].
    rewrite replace_nil. apply replaced_none, contains_nil_false.
  - destruct s as [|c s].
    + rewrite replace_nil. apply replaced_none, contains_nil_false.
    + rewrite replace_unfold. destruct (startswith old (String c s)) eqn:E.
      * pose proof E as E'. apply startswith_iff in E' as [r Hr].
        rewrite Hr, drop_append.
        apply (replaced_step old new "" r); [apply contains_but_last_false |].
        apply IH. apply (f_equal String.length) in Hr.
        rewrite length_append in Hr. cbn [String.length] in Hr, Hlen.
        assert (0 < String.length old); [| lia].
        revert old_nonempty. clear. destruct old; [congruence | cbn; lia].
      * apply replaced_all_cons; [assumption |].
        apply IH. cbn [String.length] in Hlen. lia.
Qed.

(** [replace] replaces every occurrence. *)
Lemma replace_replaces_all (s : string) : replaced_all old new s (replace old new s).
Proof. now apply (replace_replaces_all_bounded (String.length s)). Qed.

(** No copy of [old] starts before the leftmost one. *)
Lemma leftmost_first (u1 r1 u2 r2 : string) :
  u1 +:+ old +:+ r1 = u2 +:+ old +:+ r2 ->
  contains old (u2 +:+ but_last old) = false ->
  String.length u2 <= String.length u1.
Proof.
  intros E H.
  destruct (Nat.le_gt_cases (String.length u2) (String.length u1)) as [|Hlt];
    [assumption | exfalso].
  destruct (append_split u1 (old +:+ r1) u2 (old +:+ r2) E) as (v & -> & E'); [lia |].
  rewrite length_append in Hlt.
  destruct (but_last_prefix old) as [t Ht].
  assert (E2 : old +:+ r1 = (v +:+ but_last old) +:+ (t +:+ r2)).
  { rewrite E', append_assoc. f_equal. now rewrite <- append_assoc, <- Ht. }
  destruct (append_split old r1 (v +:+ but_last old) (t +:+ r2) E2) as (z & Hz & _).
  { rewrite length_append. pose proof (length_but_last old old_nonempty). lia. }
  assert (C : contains old ((u1 +:+ v) +:+ but_last old) = true).
  { apply contains_iff. exists u1, z. now rewrite append_assoc, Hz. }
  congruence.
Qed.

(** What [replaced_all] relates a text to is determined by the text. *)
Lemma replaced_all_functional (s t1 t2 : string) :
  replaced_all old new s t1 -> replaced_all old new s t2 -> t1 = t2.
Proof.
  intros H1. revert t2.
  induction H1 as [u Hu | u rest rest' Hu Hrest IH]; intros t2 H2.
  - inversion H2 as [u' Hu' | u' r' r'' Hu' Hr' E]; [reflexivity | exfalso].
    assert (C : contains old u = true) by (apply contains_iff; eauto).
    congruence.
  - remember (u +:+ old +:+ rest) as s eqn:Hs.
    inversion H2 as [u' Hu' | u' r' r'' Hu' Hr' E]; subst.
    + exfalso.
      assert (C : contains old (u +:+ old +:+ rest) = true) by (apply contains_iff; eauto).
      congruence.
    + assert (Hlen : String.length u = String.length u').
      { apply Nat.le_antisymm;
          [eapply (leftmost_first u'); [exact E | exact Hu]
          | eapply (leftmost_first u); [symmetry; exact E | exact Hu']]. }
      destruct (append_split u' (old +:+ r') u (old +:+ rest) E) as (e & -> & E'); [lia |].
      rewrite length_append in Hlen.
      destruct e; [| cbn [String.length] in Hlen; lia].
      rewrite append_nil_l in E'. apply append_inv_head in E' as ->.
      rewrite append_nil_r. do 2 f_equal. now apply IH.
Qed.

End NonEmptyOld.

End StrFacts.

(** ** UTF-8 and newlines *)

Module Utf8Facts.
Import Str StrFacts.

Lemma utf8_valid_Utf8_bounded (n : nat) :
  forall s, String.length s <= n -> utf8_valid s = true -> Utf8 s.
Proof.
  induction n as [|n IH]; intros s Hlen H.
  - destruct s; [constructor | cbn in Hlen; lia].
  - destruct s as [|b1 r1]; [constructor |].
    cbn [utf8_valid String.length] in *.
    destruct (in_range 0 127 b1) eqn:E1.
    { apply Utf8_one; [assumption | apply IH; [lia | assumption]]. }
    destruct r1 as [|b2 r2]; [discriminate |]. cbn [String.length] in Hlen.
    destruct (in_range 194 223 b1) eqn:E2.
    { apply andb_true_iff in H as [H2 H].
      apply Utf8_two; try assumption. apply IH; [lia | assumption]. }
    destruct r2 as [|b3 r3]; [discriminate |]. cbn [String.length] in Hlen.
    destruct (in_range 224 239 b1) eqn:E3.
    { apply andb_true_iff in H as [H3 H]. apply andb_true_iff in H3 as [H2 H3].
      apply Utf8_three; try assumption. apply IH; [lia | assumption]. }
    destruct r3 as [|b4 r4]; [discriminate |]. cbn [String.length] in Hlen.
    apply andb_true_iff in H as [H4 H]. apply andb_true_iff in H4 as [H3 H4].
    apply andb_true_iff in H3 as [H2 H3]. apply andb_true_iff in H2 as [H1 H2].
    apply Utf8_four; try assumption. apply IH; [lia | assumption].
Qed.

Lemma Utf8_utf8_valid (s : string) : Utf8 s -> utf8_valid s = true.
Proof.
  induction 1 as [| b1 r H1 _ IH | b1 b2 r H1 H2 H3 _ IH
                  | b1 b2 b3 r H1 H2 H3 H4 H5 _ IH
                  | b1 b2 b3 b4 r H1 H2 H3 H4 H5 H6 H7 _ IH];
    cbn [utf8_valid]; rewrite ?H1, ?H2, ?H3, ?H4, ?H5, ?H6, ?H7, ?IH; reflexivity.
Qed.

(** The validator accepts exactly the sequences of well-formed
    characters. *)
Lemma utf8_valid_iff (s : string) : utf8_valid s = true <-> Utf8 s.
Proof.
  split; [apply (utf8_valid_Utf8_bounded (String.length s)); lia | apply Utf8_utf8_valid].
Qed.

Lemma Utf8_app (a b : string) : Utf8 a -> Utf8 b -> Utf8 (a +:+ b).
Proof.
  intros Ha Hb. induction Ha; rewrite ?append_cons, ?append_nil_l;
    [assumption | constructor; assumption ..].
Qed.

(** Concatenating encodable texts gives an encodable text. *)
Lemma utf8_valid_app (a b : string) :
  utf8_valid a = true -> utf8_valid b = true -> utf8_valid (a +:+ b) = true.
Proof. rewrite !utf8_valid_iff. apply Utf8_app. Qed.

Ltac ranges :=
  unfold second_of_three, second_of_four in *; unfold continuation in *;
  unfold in_range in *;
  repeat match goal with
         | H : (if ?c then _ else _) = _ |- _ => destruct c eqn:?
         | H : _ && _ = true |- _ => apply andb_true_iff in H as [? ?]
         | H : _ && _ = false |- _ => apply andb_false_iff in H as [?|?]
         | H : (_ <=? _)%nat = true |- _ => apply Nat.leb_le in H
         | H : (_ <=? _)%nat = false |- _ => apply Nat.leb_gt in H
         end;
  repeat match goal with
         | |- context [(?a <=? ?b)%nat] => destruct (Nat.leb_spec a b)
         end;
  cbn [andb orb]; try reflexivity; try discriminate; try lia.

Lemma second_of_three_continuation (b1 b2 : ascii) :
  second_of_three b1 b2 = true -> continuation b2 = true.
Proof. intros H. ranges. Qed.

Lemma second_of_four_continuation (b1 b2 : ascii) :
  second_of_four b1 b2 = true -> continuation b2 = true.
Proof. intros H. ranges. Qed.

Lemma high_not_ascii (c : ascii) : continuation c = true -> in_range 0 127 c = false.
Proof. intros H. ranges. Qed.

Lemma not_cr_high (c : ascii) : in_range 0 127 c = false -> Ascii.eqb c CR = false.
Proof.
  intros H. destruct (Ascii.eqb_spec c CR) as [->|]; [| reflexivity].
  vm_compute in H. discriminate.
Qed.

Lemma not_cr_continuation (c : ascii) : continuation c = true -> Ascii.eqb c CR = false.
Proof. intros H. now apply not_cr_high, high_not_ascii. Qed.

Lemma universal_newlines_cons (c : ascii) (r : string) :
  Ascii.eqb c CR = false ->
  universal_newlines (String c r) = String c (universal_newlines r).
Proof. intros H. cbn [universal_newlines]. now rewrite H. Qed.

(** A text without CR is read as it is. *)
Lemma universal_newlines_without_cr (s : string) :
  has_cr s = false -> universal_newlines s = s.
Proof.
  induction s as [|c s IH]; [reflexivity |]. cbn [has_cr].
  intros H. apply orb_false_iff in H as [H1 H2].
  rewrite universal_newlines_cons by assumption. now rewrite IH.
Qed.

(** What has been read holds no CR. *)
Lemma universal_newlines_has_no_cr (s : string) : has_cr (universal_newlines s) = false.
Proof.
  assert (H : forall n s, String.length s <= n -> has_cr (universal_newlines s) = false).
  { clear s. induction n as [|n IH]; intros s Hlen.
    - destruct s; [reflexivity | cbn in Hlen; lia].
    - destruct s as [|c r]; [reflexivity |]. cbn [String.length] in Hlen.
      cbn [universal_newlines]. destruct (Ascii.eqb c CR) eqn:E.
      + destruct r as [|c' r']; [reflexivity |]. cbn [String.length] in Hlen.
        destruct (Ascii.eqb c' LF); cbn [has_cr]; rewrite IH by (cbn; lia); reflexivity.
      + cbn [has_cr]. rewrite E, IH by lia. reflexivity. }
  apply (H (String.length s)). lia.
Qed.

Lemma Utf8_universal_newlines (s : string) : Utf8 s -> Utf8 (universal_newlines s).
Proof.
  induction 1 as [| b1 r H1 Hr IH | b1 b2 r H1 H2 H3 _ IH
                  | b1 b2 b3 r H1 H2 H3 H4 H5 _ IH
                  | b1 b2 b3 b4 r H1 H2 H3 H4 H5 H6 H7 _ IH].
  - constructor.
  - destruct (Ascii.eqb b1 CR) eqn:E.
    + cbn [universal_newlines]. rewrite E.
      destruct r as [|c' r']; [repeat constructor |].
      destruct (Ascii.eqb_spec c' LF) as [->|Hne].
      * exact IH.
      * apply Utf8_one; [reflexivity | exact IH].
    + rewrite universal_newlines_cons by assumption. now constructor.
  - rewrite !universal_newlines_cons
      by auto using not_cr_high, not_cr_continuation.
    now constructor.
  - rewrite !universal_newlines_cons
      by eauto using not_cr_high, not_cr_continuation, second_of_three_continuation.
    now constructor.
  - rewrite !universal_newlines_cons
      by eauto using not_cr_high, not_cr_continuation, second_of_four_continuation.
    now constructor.
Qed.

(** Reading well-formed bytes gives an encodable text. *)
Lemma utf8_valid_universal_newlines (s : string) :
  utf8_valid s = true -> utf8_valid (universal_newlines s) = true.
Proof. rewrite !utf8_valid_iff. apply Utf8_universal_newlines. Qed.

Lemma Utf8_first_byte (c : ascii) (s : string) : Utf8 (String c s) -> continuation c = false.
Proof. intros H. inversion H; subst; ranges. Qed.

Lemma Utf8_cancel (a r : string) : Utf8 a -> Utf8 (a +:+ r) -> Utf8 r.
Proof.
  induction 1; rewrite ?append_cons, ?append_nil_l; intros Hfull;
    [assumption | inversion Hfull; subst; try congruence; auto ..].
Qed.

Section Replace.

Variables old new : string.
Hypothesis old_nonempty : old <> "".
Hypothesis old_valid : Utf8 old.
Hypothesis new_valid : Utf8 new.

Lemma startswith_continuation (c : ascii) (s : string) :
  continuation c = true -> startswith old (String c s) = false.
Proof.
  intros Hc. revert old_nonempty old_valid. destruct old as [|o r]; [congruence |].
  intros _ Hv. cbn [startswith].
  destruct (Ascii.eqb_spec o c) as [->|]; [| reflexivity].
  apply Utf8_first_byte in Hv. congruence.
Qed.

Lemma replace_continuation (c : ascii) (s : string) :
  continuation c = true ->
  replace old new (String c s) = String c (replace old new s).
Proof.
  intros Hc. rewrite (replace_unfold old new old_nonempty).
  now rewrite startswith_continuation.
Qed.

Lemma Utf8_replace_bounded (n : nat) :
  forall s, String.length s <= n -> Utf8 s -> Utf8 (replace old new s).
Proof.
  induction n as [|n IH]; intros s Hlen Hs.
  - destruct s; [| cbn in Hlen; lia]. rewrite (replace_nil old new old_nonempty). constructor.
  - destruct s as [|c s']; [rewrite (replace_nil old new old_nonempty); constructor |].
    rewrite (replace_unfold old new old_nonempty).
    destruct (startswith old (String c s')) eqn:E.
    + apply startswith_iff in E as [r E]. rewrite E, drop_append.
      apply Utf8_app; [assumption |]. apply IH.
      * apply (f_equal String.length) in E. rewrite length_append in E.
        assert (0 < String.length old); [| lia].
        revert old_nonempty. clear. destruct old; [congruence | cbn; lia].
      * apply (Utf8_cancel old); [assumption | now rewrite <- E].
    + cbn [String.length] in Hlen.
      inversion Hs as [| b1 r H1 Hr | b1 b2 r H1 H2 H3 Hr
                       | b1 b2 b3 r H1 H2 H3 H4 H5 Hr
                       | b1 b2 b3 b4 r H1 H2 H3 H4 H5 H6 H7 Hr]; subst;
        cbn [String.length] in Hlen.
      * apply Utf8_one; [assumption | apply IH; [lia | assumption]].
      * rewrite replace_continuation by assumption.
        apply Utf8_two; try assumption. apply IH; [lia | assumption].
      * rewrite !replace_continuation
          by eauto using second_of_three_continuation.
        apply Utf8_three; try assumption. apply IH; [lia | assumption].
      * rewrite !replace_continuation
          by eauto using second_of_four_continuation.
        apply Utf8_four; try assumption. apply IH; [lia | assumption].
Qed.

End Replace.

(** Replacing, in an encodable text, an encodable text by another
    gives an encodable text. *)
Lemma utf8_valid_replace (old new s : string) :
  old <> "" ->
  utf8_valid old = true -> utf8_valid new = true -> utf8_valid s = true ->
  utf8_valid (replace old new s) = true.
Proof.
  rewrite !utf8_valid_iff. intros Hne Ho Hn Hs.
  apply (Utf8_replace_bounded old new Hne Ho Hn (String.length s)); [lia | assumption].
Qed.

End Utf8Facts.

(** ** Paths *)

Module PathFacts.
Import Str StrFacts.

Lemma join_parts_app (p q : path) : join_parts (p ++ q) = join_parts p +:+ join_parts q.
Proof.
  induction p as [|c p IH]; [reflexivity |].
  cbn [app join_parts]. now rewrite IH, !append_assoc.
Qed.

Lemma path_str_slash (p : path) : startswith "/" (path_str p) = true.
Proof. destruct p; reflexivity. Qed.

(** A path at or below [base] has the string of [base] as a prefix of
    its own string. *)
Lemma relative_startswith (p base : path) :
  is_relative_to p base -> startswith (path_str base) (path_str p) = true.
Proof.
  intros [rest ->]. destruct base as [|c base].
  - apply path_str_slash.
  - cbn [app path_str]. change (c :: base ++ rest) with ((c :: base) ++ rest).
    rewrite join_parts_app. apply startswith_append.
Qed.

End PathFacts.

(** ** The tools *)

Section ToolFacts.

Variable env : PathEnv.

Lemma relative_not_escapes (p : path) :
  is_relative_to p (cwd env) -> escapes env p = false.
Proof.
  intros H. unfold escapes. now rewrite PathFacts.relative_startswith.
Qed.

(** A block whose handler returns never raises. *)
Lemma try_except_returns {A} (body : M A) (h : exn -> A) (w : world) :
  exists a w', try_except body (fun e => mret (h e)) w = (Ok a, w').
Proof.
  unfold try_except. destruct (body w) as [[a|e] w']; eauto.
Qed.

Lemma read_file_tool_returns (d : gmap string pyval) (w : world) :
  exists o w', read_file_tool env d w = (Ok o, w').
Proof.
  unfold read_file_tool. destruct (negb (truthy (dict_get d "path"))).
  - eexists _, _. reflexivity.
  - apply try_except_returns.
Qed.

Lemma list_files_tool_returns (d : gmap string pyval) (w : world) :
  exists o w', list_files_tool env d w = (Ok o, w').
Proof. unfold list_files_tool. apply try_except_returns. Qed.

Lemma _create_new_file_returns (f c : pyval) (w : world) :
  exists o w', _create_new_file env f c w = (Ok o, w').
Proof. unfold _create_new_file. apply try_except_returns. Qed.

Lemma py_eq_none_l (v : pyval) : py_eq VNone v = true -> v = VNone.
Proof. destruct v; cbn; congruence. Qed.

Lemma must_differ_not_access (v : pyval) : must_differ_msg <> access_denied_msg v.
Proof. unfold must_differ_msg, access_denied_msg. discriminate. Qed.

(** C4. An [edit_file] call whose arguments contain [old_str], equal
    ([==]) to [new_str], returns an error payload and leaves the file
    system as it was: no file is created or modified, and no operation
    is performed on it at all. *)
Theorem edit_file_equal_strings_error (d : gmap string pyval) (o : pyval) (w : world) :
  d !! "old_str" = Some o ->
  py_eq o (dict_get d "new_str") = true ->
  exists msg, edit_file_tool env d w = (Ok (ErrorJson msg), w).
Proof.
  intros Hold Heq. unfold edit_file_tool.
  assert (Ho : dict_get d "old_str" = o) by (unfold dict_get; now rewrite Hold).
  rewrite Ho.
  destruct (is_none (dict_get d "path") || is_none (dict_get d "new_str")) eqn:Hreq.
  - now exists invalid_input_msg.
  - rewrite Heq. destruct o; cbn [is_none negb andb]; try now exists must_differ_msg.
    apply py_eq_none_l in Heq. rewrite Heq in Hreq. cbn in Hreq.
    now rewrite orb_true_r in Hreq.
Qed.

(** C10. [edit_file] compares [old_str] with [new_str] before it looks
    at where the path leads: with a path given, and [old_str] given
    (not [None]) and equal to [new_str], the answer is the
    'must be different' error, which is not the access-denied error,
    whatever the path resolves to (also outside the working directory,
    also when resolution would raise), and the file system is left as
    it was. *)
Theorem edit_file_equality_checked_before_confinement
    (d : gmap string pyval) (v o : pyval) (w : world) :
  d !! "path" = Some v -> v <> VNone ->
  d !! "old_str" = Some o -> o <> VNone ->
  py_eq o (dict_get d "new_str") = true ->
  edit_file_tool env d w = (Ok (ErrorJson must_differ_msg), w)
  /\ must_differ_msg <> access_denied_msg v.
Proof.
  intros Hp Hv Hold Ho Heq. split; [| apply must_differ_not_access].
  unfold edit_file_tool.
  assert (E1 : dict_get d "old_str" = o) by (unfold dict_get; now rewrite Hold).
  assert (E2 : dict_get d "path" = v) by (unfold dict_get; now rewrite Hp).
  rewrite E1, E2, Heq.
  assert (Hn : is_none (dict_get d "new_str") = false).
  { destruct (dict_get d "new_str"); try reflexivity.
    destruct o; cbn in Heq; congruence. }
  rewrite Hn. destruct v; [congruence | ..]; destruct o; try congruence; reflexivity.
Qed.

(** C3, at the failing input: with a path that is not a string,
    [edit_file_tool] raises [TypeError] to its caller, because
    [Path(path_str).resolve()] stands before its [try]. *)
Theorem edit_file_raises_on_non_string_path (w : world) :
  edit_file_tool env {[ "path" := VInt 1; "new_str" := VStr "x" ]} w
  = (Raise (Exn TypeError "expected str, bytes or os.PathLike object, not int"), w).
Proof. reflexivity. Qed.

(** The same happens for a string path on which resolution raises. *)
Lemma edit_file_raises_when_resolve_raises
    (d : gmap string pyval) (s : string) (e : exn) (w : world) :
  dict_get d "path" = VStr s ->
  is_none (dict_get d "new_str") = false ->
  (negb (is_none (dict_get d "old_str"))
   && py_eq (dict_get d "old_str") (dict_get d "new_str")) = false ->
  resolve env s = Raise e ->
  edit_file_tool env d w = (Raise e, w).
Proof.
  intros Hp Hn Hd Hr. unfold edit_file_tool. rewrite Hp, Hn, Hd. cbn.
  unfold_m. cbn. now rewrite Hr.
Qed.

(** C1, as the code has it. When the path argument resolves to a path
    whose string does not begin with the string of the working
    directory, each of the three tools returns an error payload and
    leaves the file system and its operation log as they were. The
    payload is the access-denied error, except where a check on the
    arguments answers first: [read_file] on an empty path, [edit_file]
    without [new_str] or with [old_str] given and equal to [new_str]. *)
Theorem tools_reject_paths_off_the_cwd_prefix (s : string) (p : path) (w : world) :
  resolve env s = Ok p ->
  escapes env p = true ->
  (forall d, dict_get d "path" = VStr s ->
     exists msg, read_file_tool env d w = (Ok (ErrorJson msg), w)
                 /\ (s <> "" -> msg = access_denied_msg (VStr s)))
  /\ (forall d, dict_get_default d "path" (VStr ".") = VStr s ->
        list_files_tool env d w = (Ok (ErrorJson (access_denied_msg (VStr s))), w))
  /\ (forall d, dict_get d "path" = VStr s ->
        exists msg, edit_file_tool env d w = (Ok (ErrorJson msg), w)
                    /\ (is_none (dict_get d "new_str") = false ->
                        (negb (is_none (dict_get d "old_str"))
                         && py_eq (dict_get d "old_str") (dict_get d "new_str")) = false ->
                        msg = access_denied_msg (VStr s))).
Proof.
  intros Hr He. repeat split.
  - intros d Hp. unfold read_file_tool. rewrite Hp.
    destruct (String.eqb_spec s "") as [->|Hs].
    + eexists. split; [reflexivity | congruence].
    + assert (Ht : truthy (VStr s) = true).
      { cbn. now destruct (String.eqb_spec s ""). }
      rewrite Ht. cbn. unfold_m. cbn. rewrite Hr, He. eauto.
  - intros d Hp. unfold list_files_tool. rewrite Hp.
    unfold_m. cbn. now rewrite Hr, He.
  - intros d Hp. unfold edit_file_tool. rewrite Hp. cbn [is_none orb].
    destruct (is_none (dict_get d "new_str")).
    { eexists. split; [reflexivity | congruence]. }
    destruct (negb (is_none (dict_get d "old_str")) && _).
    { eexists. split; [reflexivity | congruence]. }
    unfold_m. cbn. rewrite Hr, He. eauto.
Qed.

Lemma py_eq_str (a b : string) : py_eq (VStr a) (VStr b) = String.eqb a b.
Proof. reflexivity. Qed.

(** *** Running the blocks step by step *)

Lemma bind_run {A B} (m : M A) (k : A -> M B) (w w' : world) (a : A) :
  m w = (Ok a, w') -> (m ≫= k) w = k a w'.
Proof. intros H. unfold mbind, M_bind. now rewrite H. Qed.

Lemma try_run_ok {A} (body : M A) (h : exn -> M A) (w w' : world) (a : A) :
  body w = (Ok a, w') -> try_except body h w = (Ok a, w').
Proof. intros H. unfold try_except. now rewrite H. Qed.

Lemma Path_resolve_run (s : string) (p : path) (w : world) :
  resolve env s = Ok p -> Path_resolve env (VStr s) w = (Ok p, w).
Proof. intros H. cbn. unfold lift. now rewrite H. Qed.

Lemma path_exists_run (p : path) (w : world) :
  path_exists p w =
    (Ok (match node_at (files w) p with Some _ => true | None => false end),
     logged w (OpExists p)).
Proof. reflexivity. Qed.

Lemma is_file_run (p : path) (w : world) :
  is_file p w =
    (Ok (match node_at (files w) p with Some (File _) => true | _ => false end),
     logged w (OpIsFile p)).
Proof. reflexivity. Qed.

Lemma read_text_run (p : path) (bytes : string) (w : world) :
  node_at (files w) p = Some (File bytes) ->
  Str.utf8_valid bytes = true ->
  read_text env p w = (Ok (Str.universal_newlines bytes), logged w (OpRead p)).
Proof.
  intros H Hv. unfold read_text, decode_text. unfold_m. cbn. now rewrite H, Hv.
Qed.

Lemma read_text_undecodable (p : path) (bytes : string) (w : world) :
  node_at (files w) p = Some (File bytes) ->
  Str.utf8_valid bytes = false ->
  read_text env p w
  = (Raise (Exn UnicodeDecodeError (strerror env UnicodeDecodeError bytes)),
     logged w (OpRead p)).
Proof.
  intros H Hv. unfold read_text, decode_text. unfold_m. cbn. now rewrite H, Hv.
Qed.

Lemma write_text_existing (p : path) (c s : string) (w : world) :
  node_at (files w) p = Some (File c) ->
  Str.utf8_valid s = true ->
  write_text env p (VStr s) w =
    (Ok tt, {| files := <[p := File s]> (files w); oplog := oplog w ++ [OpWrite p] |}).
Proof.
  intros H Hv. unfold write_text, open_w, write, encode_text. unfold_m. cbn.
  rewrite H, Hv. cbn. now rewrite insert_insert_eq.
Qed.

Lemma write_text_existing_unencodable (p : path) (c s : string) (w : world) :
  node_at (files w) p = Some (File c) ->
  Str.utf8_valid s = false ->
  write_text env p (VStr s) w =
    (Raise (Exn UnicodeEncodeError (strerror env UnicodeEncodeError s)),
     {| files := <[p := File ""]> (files w); oplog := oplog w ++ [OpWrite p] |}).
Proof.
  intros H Hv. unfold write_text, open_w, write, encode_text. unfold_m. cbn.
  now rewrite H, Hv.
Qed.

Lemma write_text_new (p : path) (s : string) (w : world) :
  node_at (files w) p = None ->
  node_at (files w) (parent p) = Some Dir ->
  Str.utf8_valid s = true ->
  write_text env p (VStr s) w =
    (Ok tt, {| files := <[p := File s]> (files w); oplog := oplog w ++ [OpWrite p] |}).
Proof.
  intros H1 H2 Hv. unfold write_text, open_w, write, encode_text. unfold_m. cbn.
  rewrite H1, H2, Hv. cbn. now rewrite insert_insert_eq.
Qed.

Lemma write_text_new_unencodable (p : path) (s : string) (w : world) :
  node_at (files w) p = None ->
  node_at (files w) (parent p) = Some Dir ->
  Str.utf8_valid s = false ->
  write_text env p (VStr s) w =
    (Raise (Exn UnicodeEncodeError (strerror env UnicodeEncodeError s)),
     {| files := <[p := File ""]> (files w); oplog := oplog w ++ [OpWrite p] |}).
Proof.
  intros H1 H2 Hv. unfold write_text, open_w, write, encode_text. unfold_m. cbn.
  now rewrite H1, H2, Hv.
Qed.

Lemma mkdir_parents_run (p : path) (fs' : gmap path node) (w : world) :
  mkdirs env p (files w) [] p = Ok fs' ->
  mkdir_parents env p w = (Ok tt, {| files := fs'; oplog := oplog w ++ [OpMkdir p] |}).
Proof. intros H. unfold mkdir_parents. unfold_m. cbn. now rewrite H. Qed.



(** *** Creating the parent directories *)

Lemma way_prefix (done : path) (rest : list string) (q : path) :
  q ∈ way done rest <->
  exists r1 r2, r1 <> [] /\ rest = r1 ++ r2 /\ q = done ++ r1.
Proof.
  revert done. induction rest as [|c rest IH]; intros done; cbn [way].
  - split; [intros H; inversion H |].
    intros (r1 & r2 & Hne & E & _). symmetry in E.
    apply app_eq_nil in E as [-> _]. congruence.
  - rewrite elem_of_cons, IH. split.
    + intros [-> | (r1 & r2 & Hne & -> & ->)].
      * exists [c], rest. repeat split. congruence.
      * exists (c :: r1), r2. repeat split; [congruence |].
        now rewrite <- app_assoc.
    + intros (r1 & r2 & Hne & E & ->). destruct r1 as [|x r1]; [congruence |].
      cbn in E. injection E as -> ->. destruct r1 as [|y r1].
      * now left.
      * right. exists (y :: r1), r2. repeat split; [congruence |].
        now rewrite <- app_assoc.
Qed.

Lemma mkdirs_spec (target : path) (rest : list string) :
  forall (fs : gmap path node) (done : path),
    (forall q c, q ∈ way done rest -> fs !! q <> Some (File c)) ->
    exists fs', mkdirs env target fs done rest = Ok fs'
                /\ forall q, fs' !! q = if bool_decide (q ∈ way done rest)
                                       then Some Dir else fs !! q.
Proof.
  induction rest as [|c rest IH]; intros fs done Hno; cbn [mkdirs way].
  - exists fs. split; [reflexivity |]. intros q.
    rewrite bool_decide_eq_false_2; [reflexivity | apply not_elem_of_nil].
  - set (q0 := done ++ [c]) in *.
    assert (Hq0 : forall c0, fs !! q0 <> Some (File c0)).
    { intros c0. apply Hno. now left. }
    destruct (IH (<[q0 := Dir]> fs) q0) as (fs' & Hrun & Hlook).
    { intros q c0 Hq. destruct (decide (q = q0)) as [->|Hne].
      - now rewrite lookup_insert_eq.
      - rewrite lookup_insert_ne by congruence. apply Hno. now right. }
    exists fs'. split.
    + destruct (fs !! q0) as [[c0|]|] eqn:E; [now destruct (Hq0 c0) | exact Hrun..].
    + intros q. rewrite Hlook.
      destruct (decide (q = q0)) as [->|Hne].
      * rewrite (bool_decide_eq_true_2 (q0 ∈ q0 :: _)) by now left.
        case_bool_decide; [reflexivity | apply lookup_insert_eq].
      * rewrite lookup_insert_ne by congruence.
        repeat case_bool_decide; try reflexivity.
        -- exfalso. apply H0. now right.
        -- exfalso. apply elem_of_cons in H0 as [?|?]; congruence.
Qed.

Lemma parent_shorter (p : path) : p <> [] -> length (parent p) < length p.
Proof.
  intros H. destruct (exists_last H) as (q & x & ->).
  unfold parent. rewrite removelast_last, length_app. cbn. lia.
Qed.

Lemma way_parent_prefix (p q : path) :
  q ∈ way [] (parent p) -> q `prefix_of` parent p /\ q <> p /\ q <> [].
Proof.
  intros H. apply way_prefix in H as (r1 & r2 & Hne & E & ->). cbn [app].
  repeat split; [now exists r2 | | assumption].
  intros ->. destruct (decide (p = [])) as [->|Hp]; [congruence |].
  apply parent_shorter in Hp. rewrite E, length_app in Hp. lia.
Qed.


End ToolFacts.

(** ** The agent loop *)

Section AgentFacts.
Import Agent.

Variable self : Agent.t.

Lemma extends_refl (m : machine) : extends m m.
Proof. exists []. split; [now rewrite app_nil_r | apply not_elem_of_nil]. Qed.

Lemma extends_trans (m1 m2 m3 : machine) :
  extends m1 m2 -> extends m2 m3 -> extends m1 m3.
Proof.
  intros (e1 & H1 & N1) (e2 & H2 & N2). exists (e1 ++ e2). split.
  - now rewrite H2, H1, app_assoc.
  - rewrite elem_of_app. tauto.
Qed.

Lemma extends_emit (ev : event) (m : machine) : ev <> Prompt -> extends m (emit ev m).
Proof.
  intros H. exists [ev]. split; [reflexivity |].
  rewrite list_elem_of_singleton. congruence.
Qed.

Lemma extends_files (w : world) (m : machine) :
  extends m {| fsys := w; trace := trace m |}.
Proof. exists []. split; [cbn; now rewrite app_nil_r | apply not_elem_of_nil]. Qed.

Lemma execute_tool_extends name d m :
  extends m (snd (execute_tool self name d m)).
Proof.
  unfold execute_tool. destruct (tool_map self !! name) as [tool|].
  - destruct (function tool d (fsys m)) as [[r|e] w]; cbn [snd].
    + apply extends_files.
    + eapply extends_trans; [apply extends_files |].
      apply (extends_emit (ToolRaised name e)). discriminate.
  - apply extends_emit. discriminate.
Qed.

Lemma handle_tool_call_extends request m :
  extends m (snd (handle_tool_call self request m)).
Proof.
  unfold handle_tool_call. destruct (call_arguments request) as [d|v].
  - pose proof (execute_tool_extends (call_name request) d
                  (emit (ToolCallLine (call_name request) d) m)) as H.
    destruct (execute_tool _ _ _ _) as [r m']. cbn [snd] in *.
    eapply extends_trans; [| eapply extends_trans; [exact H |]];
      apply extends_emit; discriminate.
  - apply extends_emit. discriminate.
Qed.

Lemma run_tool_calls_extends calls :
  forall m, extends m (snd (run_tool_calls self calls m)).
Proof.
  induction calls as [|request rest IH]; intros m; cbn [run_tool_calls].
  - apply extends_refl.
  - pose proof (handle_tool_call_extends request m) as H1.
    destruct (handle_tool_call self request m) as [c m1]. cbn [snd] in H1.
    pose proof (IH m1) as H2.
    destruct (run_tool_calls self rest m1) as [results m2]. cbn [snd] in *.
    eapply extends_trans; eassumption.
Qed.

Lemma handle_tool_call_answers request m :
  answers self request (fsys m)
          (fst (handle_tool_call self request m))
          (fsys (snd (handle_tool_call self request m))).
Proof.
  destruct request as [name [d|v]]; unfold handle_tool_call; cbn.
  - unfold execute_tool. cbn.
    destruct (tool_map self !! name) as [tool|] eqn:E.
    + destruct (function tool d (fsys m)) as [[r|e] w] eqn:F; cbn.
      * eapply answers_ran; eassumption.
      * eapply answers_raised; eassumption.
    + cbn. now apply answers_unknown.
  - apply answers_not_dict.
Qed.

Lemma run_tool_calls_in_order calls :
  forall m, answered_in_order self calls (fsys m)
              (fst (run_tool_calls self calls m))
              (fsys (snd (run_tool_calls self calls m))).
Proof.
  induction calls as [|request rest IH]; intros m; cbn [run_tool_calls].
  - constructor.
  - pose proof (handle_tool_call_answers request m) as H1.
    destruct (handle_tool_call self request m) as [c m1]. cbn in H1.
    pose proof (IH m1) as H2.
    destruct (run_tool_calls self rest m1) as [results m2]. cbn in *.
    econstructor; eassumption.
Qed.

Lemma answered_in_order_length calls w results w' :
  answered_in_order self calls w results w' -> length results = length calls.
Proof. induction 1; cbn; congruence. Qed.

(** A request with a dictionary of arguments for a registered tool is
    answered by what that tool's function does in the current file
    system. *)
Lemma answers_registered name d tool w c w' :
  answers self {| call_name := name; call_arguments := ArgDict d |} w c w' ->
  tool_map self !! name = Some tool ->
  match function tool d w with
  | (Ok r, w1) => c = ResultString r /\ w' = w1
  | (Raise e, w1) =>
      c = ResultString
            (ErrorJson ("Agent failed to execute tool " +:+ name +:+ ": " +:+ exn_text e))
      /\ w' = w1
  end.
Proof.
  intros H Htool. inversion H; subst; try congruence.
  - assert (tool0 = tool) as -> by congruence.
    match goal with F : function tool d w = _ |- _ => now rewrite F end.
  - assert (tool0 = tool) as -> by congruence.
    match goal with F : function tool d w = _ |- _ => now rewrite F end.
Qed.

(** A pass that sends messages runs the inference part on them. *)
Lemma iteration_sends o st conv :
  messages_sent o st = Some conv ->
  iteration self o st = inference_phase self o conv (before_inference st).
Proof.
  unfold messages_sent, iteration, before_inference, get_user_message.
  destruct (needs_user_input st); [| now intros [= ->]].
  destruct (user_message o) as [u|]; [| discriminate].
  destruct (truthy (VStr (Str.strip u))); [| discriminate].
  now intros [= <-].
Qed.

(** A pass that sends nothing only prompts: the model is not called,
    the conversation and the file system stay as they are. *)
Lemma iteration_sends_nothing o st :
  messages_sent o st = None ->
  conversation (final (iteration self o st)) = conversation st
  /\ fsys (mach (final (iteration self o st))) = fsys (mach st)
  /\ (trace (mach (final (iteration self o st))) = trace (mach st) ++ [Prompt]
      \/ trace (mach (final (iteration self o st))) = trace (mach st) ++ [Prompt; Exiting]).
Proof.
  unfold messages_sent, iteration, get_user_message.
  destruct (needs_user_input st); [| discriminate].
  destruct (user_message o) as [u|].
  - destruct (truthy (VStr (Str.strip u))); [discriminate |]. intros _. cbn. auto.
  - intros _. cbn. rewrite <- app_assoc. auto.
Qed.

(** The inference part starts by calling the model on the messages and
    does not prompt the user. *)
Lemma inference_phase_starts o conv m :
  exists rest,
    trace (mach (final (inference_phase self o conv m))) = trace m ++ Inference conv :: rest
    /\ Prompt ∉ rest.
Proof.
  assert (H : forall m2, extends (emit (Inference conv) m) m2 ->
                         exists rest, trace m2 = trace m ++ Inference conv :: rest
                                      /\ Prompt ∉ rest).
  { intros m2 (evs & E & N). exists evs. split; [| assumption].
    rewrite E. cbn. now rewrite <- app_assoc. }
  unfold inference_phase, run_inference.
  destruct (chat o conv) as [msg|e]; [| apply H, extends_emit; discriminate].
  set (m1 := match content msg with
             | Some text => if truthy (VStr text) then emit _ _ else _
             | None => _ end).
  assert (H1 : extends (emit (Inference conv) m) m1).
  { subst m1. destruct (content msg) as [text|]; [| apply extends_refl].
    destruct (truthy (VStr text)); [apply extends_emit; discriminate | apply extends_refl]. }
  destruct (tool_calls msg) as [[|c cs]|]; try (now apply H).
  pose proof (run_tool_calls_extends (c :: cs) m1) as H2.
  destruct (run_tool_calls self (c :: cs) m1) as [results m2].
  cbn [snd] in H2. cbn [final mach]. apply H. eapply extends_trans; eassumption.
Qed.

(** With [needs_user_input] set, a pass starts at the user prompt. *)
Lemma pass_starts_with_prompt o st :
  needs_user_input st = true ->
  exists rest,
    trace (mach (final (iteration self o st))) = trace (mach st) ++ Prompt :: rest.
Proof.
  intros H. unfold iteration, get_user_message. rewrite H.
  destruct (user_message o) as [u|]; [| now exists [Exiting]; cbn; rewrite <- app_assoc].
  destruct (negb (truthy (VStr (Str.strip u)))); [now exists [] |].
  destruct (inference_phase_starts o (conversation st ++ [UserTurn u]) (emit Prompt (mach st)))
    as (rest & E & _).
  eexists. rewrite E. cbn. now rewrite <- app_assoc.
Qed.

(** With [needs_user_input] cleared, a pass starts by sending the
    conversation to the model, and the user is not prompted in it. *)
Lemma pass_starts_with_inference o st :
  needs_user_input st = false ->
  exists rest,
    trace (mach (final (iteration self o st)))
    = trace (mach st) ++ Inference (conversation st) :: rest
    /\ Prompt ∉ rest.
Proof.
  intros H. unfold iteration. rewrite H. apply inference_phase_starts.
Qed.

(** C7. When the inference call of a pass fails, the failure is
    reported ([ApiError] follows the call in the trace), no tool runs
    (the file system and its operation log are as before), the
    conversation receives nothing for this call (it is the messages
    that were sent: the former conversation, with the user's line when
    one was just read), and the loop continues with
    [needs_user_input] set, so that the next pass starts at the user
    prompt. *)
Theorem inference_failure_returns_to_prompt o st conv e :
  messages_sent o st = Some conv ->
  chat o conv = Raise e ->
  exists st',
    iteration self o st = Continue st'
    /\ conversation st' = conv
    /\ (conv = conversation st \/ exists u, conv = conversation st ++ [UserTurn u])
    /\ needs_user_input st' = true
    /\ fsys (mach st') = fsys (mach st)
    /\ trace (mach st') = trace (before_inference st) ++ [Inference conv; ApiError e]
    /\ forall o', exists rest,
         trace (mach (final (iteration self o' st'))) = trace (mach st') ++ Prompt :: rest.
Proof.
  intros Hsent Hchat. rewrite (iteration_sends _ _ _ Hsent).
  unfold inference_phase, run_inference. rewrite Hchat.
  eexists. split; [reflexivity |].
  cbn [conversation needs_user_input mach fsys trace emit].
  repeat split.
  - revert Hsent. unfold messages_sent.
    destruct (needs_user_input st); [| intros [= <-]; now left].
    destruct (user_message o) as [u|]; [| discriminate].
    destruct (truthy _); [| discriminate]. intros [= <-]. right. now exists u.
  - unfold before_inference. now destruct (needs_user_input st).
  - now rewrite <- app_assoc.
  - intros o'. now apply pass_starts_with_prompt.
Qed.

(** C8. When the model answers with a message, the pass continues.
    If the message carries tool calls, the conversation receives the
    assistant message followed by one tool turn per request, the
    requests being answered in the order given, each in the file
    system its predecessor left; [needs_user_input] is cleared and the
    next pass starts by sending this conversation to the model, without
    a prompt. If the message carries no tool call, only the assistant
    message is appended, no tool runs, and the next pass starts at the
    user prompt. *)
Theorem tool_calls_answered_in_order o st conv msg :
  messages_sent o st = Some conv ->
  chat o conv = Ok msg ->
  exists st',
    iteration self o st = Continue st'
    /\ match tool_calls msg with
       | Some (c :: cs) =>
           exists results,
             conversation st' = conv ++ AssistantTurn msg :: results
             /\ answered_in_order self (c :: cs) (fsys (mach st)) results (fsys (mach st'))
             /\ length results = length (c :: cs)
             /\ needs_user_input st' = false
             /\ forall o', exists rest,
                  trace (mach (final (iteration self o' st')))
                  = trace (mach st') ++ Inference (conversation st') :: rest
                  /\ Prompt ∉ rest
       | _ =>
           conversation st' = conv ++ [AssistantTurn msg]
           /\ fsys (mach st') = fsys (mach st)
           /\ needs_user_input st' = true
           /\ forall o', exists rest,
                trace (mach (final (iteration self o' st')))
                = trace (mach st') ++ Prompt :: rest
       end.
Proof.
  intros Hsent Hchat. rewrite (iteration_sends _ _ _ Hsent).
  unfold inference_phase, run_inference. rewrite Hchat.
  set (m1 := match content msg with
             | Some text => if truthy (VStr text) then emit _ _ else _
             | None => _ end).
  assert (Hfs : fsys m1 = fsys (mach st)).
  { subst m1. unfold before_inference.
    destruct (content msg) as [text|]; [destruct (truthy (VStr text)) |];
      destruct (needs_user_input st); reflexivity. }
  destruct (tool_calls msg) as [[|c cs]|].
  - eexists. split; [reflexivity |].
    cbn [conversation needs_user_input mach fsys trace emit].
    repeat split; [assumption |].
    intros o'. now apply pass_starts_with_prompt.
  - pose proof (run_tool_calls_in_order (c :: cs) m1) as Hord.
    destruct (run_tool_calls self (c :: cs) m1) as [results m2]. cbn [fst snd] in Hord.
    eexists. split; [reflexivity |]. exists results.
    cbn [conversation needs_user_input mach fsys trace emit].
    rewrite Hfs in Hord. split; [now rewrite <- app_assoc |].
    split; [assumption |].
    split; [now apply answered_in_order_length in Hord |].
    split; [reflexivity |].
    intros o'. now apply pass_starts_with_inference.
  - eexists. split; [reflexivity |].
    cbn [conversation needs_user_input mach fsys trace emit].
    repeat split; [assumption |].
    intros o'. now apply pass_starts_with_prompt.
Qed.

Lemma iteration_prefix o st :
  conversation st `prefix_of` conversation (final (iteration self o st)).
Proof.
  unfold iteration, get_user_message.
  assert (H : forall conv m, conv `prefix_of` conversation (final (inference_phase self o conv m))).
  { intros conv m. unfold inference_phase, run_inference.
    destruct (chat o conv) as [msg|e]; [| reflexivity].
    destruct (tool_calls msg) as [[|c cs]|]; try (cbn; now apply prefix_app_r).
    destruct (run_tool_calls _ _ _) as [results m2]. cbn.
    now do 2 apply prefix_app_r. }
  destruct (needs_user_input st); [| apply H].
  destruct (user_message o) as [u|]; [| reflexivity].
  destruct (negb _); [reflexivity |].
  etrans; [| apply H]. now apply prefix_app_r.
Qed.

Lemma run_from_app s1 s2 st :
  run_from self (s1 ++ s2) st =
    match run_from self s1 st with
    | Continue st' => run_from self s2 st'
    | Break st' => Break st'
    end.
Proof.
  revert st. induction s1 as [|o s1 IH]; intros st; cbn [app run_from]; [reflexivity |].
  destruct (iteration self o st); [apply IH | reflexivity].
Qed.

Lemma run_from_prefix script :
  forall st, conversation st `prefix_of` conversation (final (run_from self script st)).
Proof.
  induction script as [|o script IH]; intros st; cbn [run_from]; [reflexivity |].
  pose proof (iteration_prefix o st) as H.
  destruct (iteration self o st) as [st'|st']; cbn in *; [| assumption].
  etrans; [exact H | apply IH].
Qed.

(** C9. The conversation is append-only. One pass of the loop keeps
    the conversation it found as a prefix of the one it leaves, and so
    does any further stretch of a run: the conversation reached after
    a script of passes is a prefix of the one reached after any
    longer script, from any state and in particular from the start. *)
Theorem conversation_append_only :
  (forall o st,
      conversation st `prefix_of` conversation (final (iteration self o st)))
  /\ (forall s1 s2 st,
        conversation (final (run_from self s1 st))
          `prefix_of` conversation (final (run_from self (s1 ++ s2) st)))
  /\ (forall s1 s2 w,
        conversation (final (run self s1 w))
          `prefix_of` conversation (final (run self (s1 ++ s2) w))).
Proof.
  assert (H : forall s1 s2 st,
             conversation (final (run_from self s1 st))
               `prefix_of` conversation (final (run_from self (s1 ++ s2) st))).
  { intros s1 s2 st. rewrite run_from_app.
    destruct (run_from self s1 st) as [st'|st']; cbn [final]; [| reflexivity].
    apply run_from_prefix. }
  split; [apply iteration_prefix | split; [exact H |]].
  intros s1 s2 w. apply H.
Qed.

End AgentFacts.

(* ================================================================== *)
(** * The program at work *)
(* ================================================================== *)

Section Instances.
Import Example Agent.

(** A run: the user asks, the model requests three tools, reads the
    results and answers; then the input ends. *)
Example run_ex :
  conversation (final (run agent [asks_tools; answers_text; eof] w0))
  = [UserTurn "fix it";
     AssistantTurn tool_message;
     ToolTurn (ResultString (Text "OK"));
     ToolTurn (ResultString (Text "bb"));
     ToolTurn (ArgumentErrorJson
                 "Tool arguments for 'read_file' are not in the expected dictionary format."
                 "a.txt");
     AssistantTurn text_message].
Proof. vm_compute. reflexivity. Qed.

Example list_files_ex :
  fst (list_files_tool env ∅ w0) = Ok (ArrayJson ["sub/"; "a.txt"]).
Proof. vm_compute. reflexivity. Qed.

(** What [edit_file_tool] raises, [execute_tool] turns into an error
    payload for the model. *)
Example execute_tool_catches_ex :
  fst (execute_tool agent "edit_file" (args [("path", VInt 1); ("new_str", VStr "x")])
         {| fsys := w0; trace := [] |})
  = ErrorJson
      "Agent failed to execute tool edit_file: expected str, bytes or os.PathLike object, not int".
Proof. vm_compute. reflexivity. Qed.

(** On an existing file, leaving [old_str] out does not append:
    [None not in original_content] raises inside the [try]. *)
Remark edit_file_without_old_str_on_existing_file :
  edit_file_tool env (args [("path", VStr "a.txt"); ("new_str", VStr "!")]) w0
  = (Ok (ErrorJson
           "Error editing file a.txt: 'in <string>' requires string as left operand, not NoneType"),
     {| files := fs0; oplog := [OpExists a_txt; OpIsFile a_txt; OpRead a_txt] |}).
Proof. vm_compute. reflexivity. Qed.

(** Below a regular file nothing can be created: [a.txt/x.txt] does
    not exist, and [mkdir] on its parent [a.txt] fails. *)
Remark edit_file_cannot_create_below_a_file :
  let d := args [("path", VStr "a.txt/x.txt"); ("old_str", VStr ""); ("new_str", VStr "hello")] in
  node_at (files w0) (a_txt ++ ["x.txt"]) = None
  /\ fst (edit_file_tool env d w0)
     = Ok (ErrorJson
             "Failed to create file a.txt/x.txt: [Errno 17] File exists: '/home/u/proj/a.txt'")
  /\ files (snd (edit_file_tool env d w0)) = fs0.
Proof. cbv zeta. repeat split; vm_compute; reflexivity. Qed.

(** The check on the string of the path lets a sibling directory
    through whose name continues the name of the working directory:
    [/home/u/proj-evil/s] is not below [/home/u/proj], and
    [read_file] returns its content. *)
Remark read_file_reads_sibling_directory :
  resolve env "../proj-evil/s" = Ok ["home"; "u"; "proj-evil"; "s"]
  /\ ~ is_relative_to ["home"; "u"; "proj-evil"; "s"] (cwd env)
  /\ read_file_tool env (args [("path", VStr "../proj-evil/s")]) w0
     = (Ok (Text "secret"),
        {| files := fs0;
           oplog := [OpIsFile ["home"; "u"; "proj-evil"; "s"];
                     OpRead ["home"; "u"; "proj-evil"; "s"]] |}).
Proof.
  split; [reflexivity | split; [| vm_compute; reflexivity]].
  intros [r E]. discriminate E.
Qed.

(** C1 fails as stated: [/etc/passwd] is outside the working
    directory, yet [edit_file] with [old_str] equal to [new_str]
    answers with the 'must be different' error, not with the
    access-denied error. *)
Lemma confinement_counterexample :
  let d := args [("path", VStr "/etc/passwd"); ("old_str", VStr "a"); ("new_str", VStr "a")] in
  resolve env "/etc/passwd" = Ok ["etc"; "passwd"]
  /\ ~ is_relative_to ["etc"; "passwd"] (cwd env)
  /\ edit_file_tool env d w0 = (Ok (ErrorJson must_differ_msg), w0)
  /\ ErrorJson must_differ_msg <> ErrorJson (access_denied_msg (VStr "/etc/passwd")).
Proof.
  cbv zeta. split; [reflexivity | split; [| split; [reflexivity | discriminate]]].
  intros [r E]. discriminate E.
Qed.

Lemma tools_reject_paths_off_the_cwd_prefix_witness :
  read_file_tool env (args [("path", VStr "/etc/passwd")]) w0
  = (Ok (ErrorJson (access_denied_msg (VStr "/etc/passwd"))), w0)
  /\ list_files_tool env (args [("path", VStr "/etc/passwd")]) w0
     = (Ok (ErrorJson (access_denied_msg (VStr "/etc/passwd"))), w0)
  /\ edit_file_tool env (args [("path", VStr "/etc/passwd"); ("new_str", VStr "x")]) w0
     = (Ok (ErrorJson (access_denied_msg (VStr "/etc/passwd"))), w0).
Proof.
  destruct (tools_reject_paths_off_the_cwd_prefix env "/etc/passwd" ["etc"; "passwd"] w0
              eq_refl eq_refl) as (Hread & Hlist & Hedit).
  split; [| split].
  - destruct (Hread (args [("path", VStr "/etc/passwd")]) eq_refl) as (msg & E & Hmsg).
    rewrite E, Hmsg; [reflexivity | discriminate].
  - apply Hlist. reflexivity.
  - destruct (Hedit (args [("path", VStr "/etc/passwd"); ("new_str", VStr "x")]) eq_refl)
      as (msg & E & Hmsg).
    rewrite E, Hmsg; reflexivity.
Defined.



Lemma edit_file_equal_strings_error_witness :
  exists msg,
    edit_file_tool env
      (args [("path", VStr "a.txt"); ("old_str", VStr "a"); ("new_str", VStr "a")]) w0
    = (Ok (ErrorJson msg), w0).
Proof.
  apply (edit_file_equal_strings_error env _ (VStr "a") w0); reflexivity.
Defined.

Lemma edit_file_equality_checked_before_confinement_witness :
  edit_file_tool env
    (args [("path", VStr "/etc/passwd"); ("old_str", VStr "a"); ("new_str", VStr "a")]) w0
  = (Ok (ErrorJson must_differ_msg), w0)
  /\ must_differ_msg <> access_denied_msg (VStr "/etc/passwd").
Proof.
  apply (edit_file_equality_checked_before_confinement env _ (VStr "/etc/passwd") (VStr "a") w0);
    try reflexivity; discriminate.
Defined.




Lemma regular_files_of_fs0 (q : path) (c : string) :
  fs0 !! q = Some (File c) ->
  q = a_txt \/ q = ["home"; "u"; "proj-evil"; "s"].
Proof.
  intros H. apply elem_of_map_to_list in H. vm_compute in H.
  repeat (apply elem_of_cons in H as [H|H]; [injection H as -> ?; auto; discriminate |]).
  inversion H.
Qed.


Lemma inference_failure_returns_to_prompt_witness :
  exists st',
    iteration agent server_down (start w0) = Continue st'
    /\ conversation st' = [UserTurn "hi"]
    /\ needs_user_input st' = true
    /\ fsys (mach st') = w0.
Proof.
  destruct (inference_failure_returns_to_prompt agent server_down (start w0)
              [UserTurn "hi"] down)
    as (st' & H1 & H2 & _ & H3 & H4 & _); try reflexivity.
  exists st'. repeat split; assumption.
Defined.

Lemma tool_calls_answered_in_order_witness :
  exists st' results,
    iteration agent asks_tools (start w0) = Continue st'
    /\ conversation st' = [UserTurn "fix it"] ++ AssistantTurn tool_message :: results
    /\ length results = 3
    /\ needs_user_input st' = false.
Proof.
  destruct (tool_calls_answered_in_order agent asks_tools (start w0)
              [UserTurn "fix it"] tool_message)
    as (st' & H1 & results & H2 & _ & H3 & H4 & _); try reflexivity.
  exists st', results. repeat split; assumption.
Defined.

End Instances.

(* ================================================================== *)
(** * Further properties of the tools *)
(* ================================================================== *)

(** ** Blocks that keep the files *)

Lemma keeps_ret {A} (a : A) : keeps_files (mret a : M A).
Proof. intros w. reflexivity. Qed.

Lemma keeps_raise {A} (e : exn) : keeps_files (raise e : M A).
Proof. intros w. reflexivity. Qed.

Lemma keeps_lift {A} (r : res A) : keeps_files (lift r).
Proof. intros w. reflexivity. Qed.

Lemma keeps_bind {A B} (m : M A) (k : A -> M B) :
  keeps_files m -> (forall a, keeps_files (k a)) -> keeps_files (m ≫= k).
Proof.
  intros Hm Hk w. unfold mbind, M_bind. specialize (Hm w).
  destruct (m w) as [[a|e] w1]; cbn [snd] in *; [| assumption].
  now rewrite Hk.
Qed.

Lemma keeps_try {A} (body : M A) (h : exn -> M A) :
  keeps_files body -> (forall e, keeps_files (h e)) -> keeps_files (try_except body h).
Proof.
  intros Hm Hh w. unfold try_except. specialize (Hm w).
  destruct (body w) as [[a|e] w1]; cbn [snd] in *; [assumption |].
  now rewrite Hh.
Qed.

Lemma keeps_if {A} (b : bool) (m1 m2 : M A) :
  keeps_files m1 -> keeps_files m2 -> keeps_files (if b then m1 else m2).
Proof. now destruct b. Qed.

Lemma keeps_path_exists (p : path) : keeps_files (path_exists p).
Proof. intros w. reflexivity. Qed.

Lemma keeps_is_file (p : path) : keeps_files (is_file p).
Proof. intros w. reflexivity. Qed.

Lemma keeps_is_dir (p : path) : keeps_files (is_dir p).
Proof. intros w. reflexivity. Qed.

Lemma keeps_read_text (env : PathEnv) (p : path) : keeps_files (read_text env p).
Proof.
  intros w. unfold read_text, decode_text. unfold_m. cbn.
  destruct (node_at (files w) p) as [[c|]|]; [destruct (Str.utf8_valid c) | |]; reflexivity.
Qed.

Lemma keeps_iterdir (env : PathEnv) (p : path) : keeps_files (iterdir env p).
Proof.
  intros w. unfold iterdir. unfold_m. cbn.
  destruct (node_at (files w) p) as [[c|]|]; reflexivity.
Qed.

Lemma keeps_Path_resolve (env : PathEnv) (v : pyval) : keeps_files (Path_resolve env v).
Proof. intros w. destruct v; reflexivity. Qed.

Lemma keeps_mapM {A B} (f : A -> M B) (l : list A) :
  (forall a, keeps_files (f a)) -> keeps_files (mapM f l).
Proof.
  intros Hf. induction l as [|a l IH]; cbn [mapM].
  - apply keeps_ret.
  - apply keeps_bind; [apply Hf |]. intros b.
    apply keeps_bind; [apply IH |]. intros bs. apply keeps_ret.
Qed.

Section MoreToolFacts.

Variable env : PathEnv.

Lemma read_file_tool_keeps_files (d : gmap string pyval) : keeps_files (read_file_tool env d).
Proof.
  unfold read_file_tool. apply keeps_if; [apply keeps_ret |].
  apply keeps_try; [| intros e; apply keeps_ret].
  apply keeps_bind; [apply keeps_Path_resolve |]. intros p.
  apply keeps_if; [apply keeps_ret |].
  apply keeps_bind; [apply keeps_is_file |]. intros b.
  apply keeps_if; [apply keeps_ret |].
  apply keeps_bind; [apply keeps_read_text |]. intros c. apply keeps_ret.
Qed.

Lemma list_files_tool_keeps_files (d : gmap string pyval) : keeps_files (list_files_tool env d).
Proof.
  unfold list_files_tool.
  apply keeps_try; [| intros e; apply keeps_ret].
  apply keeps_bind; [apply keeps_Path_resolve |]. intros p.
  apply keeps_if; [apply keeps_ret |].
  apply keeps_bind; [apply keeps_path_exists |]. intros b.
  apply keeps_if; [apply keeps_ret |].
  apply keeps_bind; [apply keeps_iterdir |]. intros items.
  apply keeps_bind; [| intros names; apply keeps_ret].
  apply keeps_mapM. intros item.
  apply keeps_bind; [apply keeps_is_dir |]. intros b'. apply keeps_ret.
Qed.

(** X1. [read_file_tool] is safe on every input: it returns to its
    caller (an exception inside is turned into an error payload) and
    the files are what they were. *)
Theorem read_file_tool_returns_and_keeps_files (d : gmap string pyval) (w : world) :
  exists o w', read_file_tool env d w = (Ok o, w') /\ files w' = files w.
Proof.
  destruct (read_file_tool_returns env d w) as (o & w' & E).
  exists o, w'. split; [assumption |].
  pose proof (read_file_tool_keeps_files d w) as H. now rewrite E in H.
Qed.

(** X2. [list_files_tool] is safe on every input in the same way. *)
Theorem list_files_tool_returns_and_keeps_files (d : gmap string pyval) (w : world) :
  exists o w', list_files_tool env d w = (Ok o, w') /\ files w' = files w.
Proof.
  destruct (list_files_tool_returns env d w) as (o & w' & E).
  exists o, w'. split; [assumption |].
  pose proof (list_files_tool_keeps_files d w) as H. now rewrite E in H.
Qed.

End MoreToolFacts.

Section ReadAndList.

Variable env : PathEnv.

Lemma truthy_nonempty (s : string) : s <> "" -> truthy (VStr s) = true.
Proof. intros H. cbn. now destruct (String.eqb_spec s ""). Qed.



(** X5. Without a usable path: when the key "path" is absent, or its
    value is [None] or the empty string, [read_file_tool] answers
    'Path is required.' and neither resolves anything nor looks at the
    file system. *)
Theorem read_file_tool_requires_path (d : gmap string pyval) (w : world) :
  (d !! "path" = None \/ d !! "path" = Some VNone \/ d !! "path" = Some (VStr "")) ->
  read_file_tool env d w = (Ok (ErrorJson "Path is required."), w).
Proof.
  intros H. unfold read_file_tool, dict_get.
  destruct H as [-> | [-> | ->]]; reflexivity.
Qed.

Lemma is_dir_run (p : path) (w : world) :
  is_dir p w =
    (Ok (match node_at (files w) p with Some Dir => true | _ => false end),
     logged w (OpIsDir p)).
Proof. reflexivity. Qed.

Lemma list_entries_run (items : list path) :
  forall w,
    mapM (fun item : path =>
            (d ← is_dir item;
             mret (if d : bool then name item +:+ "/" else name item)) : M string)
         items w
    = (Ok (map (entry_name (files w)) items),
       {| files := files w; oplog := oplog w ++ map OpIsDir items |}).
Proof.
  induction items as [|q items IH]; intros w; cbn [mapM map].
  - unfold_m. rewrite app_nil_r. now destruct w.
  - erewrite bind_run by (erewrite bind_run by apply is_dir_run; reflexivity).
    erewrite bind_run by apply IH.
    unfold mret, M_ret, logged, entry_name. cbn [files oplog].
    rewrite <- app_assoc. cbn [app].
    destruct (node_at (files w) q) as [[c|]|]; reflexivity.
Qed.

Lemma children_spec (fs : gmap path node) (p q : path) :
  q ∈ children fs p <-> is_Some (fs !! q) /\ q <> [] /\ parent q = p.
Proof.
  unfold children. rewrite list_elem_of_In, filter_In, in_map_iff.
  rewrite bool_decide_eq_true. split.
  - intros [((q' & n) & <- & Hin) H]. split; [| exact H].
    apply list_elem_of_In, elem_of_map_to_list in Hin. cbn. eauto.
  - intros [[n Hn] H]. split; [| exact H].
    exists (q, n). split; [reflexivity |].
    now apply list_elem_of_In, elem_of_map_to_list.
Qed.

Lemma children_NoDup (fs : gmap path node) (p : path) : NoDup (children fs p).
Proof.
  unfold children. apply NoDup_ListNoDup, List.NoDup_filter, NoDup_ListNoDup.
  apply (NoDup_fst_map_to_list fs).
Qed.

Lemma listing_Permutation (fs : gmap path node) (p : path) :
  listing env fs p ≡ₚ children fs p.
Proof. apply merge_sort_Permutation. Qed.



End ReadAndList.

(** ** The order of a listing *)

Lemma listed_before_trans (env : PathEnv) : Transitive (listed_before env).
Proof. intros a b c. unfold listed_before. lia. Qed.

Lemma listed_before_total (env : PathEnv) : Total (listed_before env).
Proof. intros a b. unfold listed_before. lia. Qed.

Lemma position_inj (l : list path) (a b : path) :
  a ∈ l -> b ∈ l -> position l a = position l b -> a = b.
Proof.
  induction l as [|x l IH]; intros Ha Hb; [inversion Ha |]. cbn [position].
  destruct (decide (a = x)) as [->|Hax], (decide (b = x)) as [->|Hbx];
    try congruence; try discriminate.
  intros [= E]. apply elem_of_cons in Ha as [?|Ha], Hb as [?|Hb]; try contradiction.
  now apply IH.
Qed.

Lemma StronglySorted_within {A} (R R' : relation A) (l : list A) :
  (forall a b, a ∈ l -> b ∈ l -> R a b -> R' a b) ->
  StronglySorted R l -> StronglySorted R' l.
Proof.
  intros H S. induction S as [|x l S IH Hx]; constructor.
  - apply IH. intros a b Ha Hb. apply H; now right.
  - apply Forall_forall. intros y Hy. rewrite Forall_forall in Hx.
    apply H; [now left | now right | now apply Hx].
Qed.

Lemma position_sorted (l : list path) :
  NoDup l -> StronglySorted (fun a b => position l a <= position l b) l.
Proof.
  induction 1 as [|x l Hx Hl IH]; constructor.
  - eapply StronglySorted_within; [| exact IH].
    intros a b Ha Hb Hab. cbn beta in Hab. cbn [position].
    destruct (decide (a = x)) as [->|_]; [contradiction |].
    destruct (decide (b = x)) as [->|_]; [contradiction | lia].
  - apply Forall_forall. intros y _. cbn [position].
    destruct (decide (x = x)); [lia | contradiction].
Qed.

Lemma StronglySorted_unique_within {A} (R : relation A) (l1 l2 : list A) :
  (forall a b, a ∈ l1 -> b ∈ l1 -> R a b -> R b a -> a = b) ->
  Reflexive R ->
  StronglySorted R l1 -> StronglySorted R l2 -> l1 ≡ₚ l2 -> l1 = l2.
Proof.
  intros Hanti Hrefl S1. revert l2.
  induction S1 as [|x1 l1 S1 IH H1]; intros l2 S2 Hp.
  - now apply Permutation_nil_l in Hp.
  - destruct S2 as [|x2 l2 S2 H2]; [now apply Permutation_nil_r in Hp |].
    rewrite Forall_forall in H1, H2.
    assert (Hx : x1 = x2).
    { assert (I1 : x1 ∈ x2 :: l2) by (rewrite <- Hp; now left).
      assert (I2 : x2 ∈ x1 :: l1) by (rewrite Hp; now left).
      apply Hanti; [now left | assumption | |].
      - apply elem_of_cons in I2 as [->|I2]; [apply Hrefl | now apply H1].
      - apply elem_of_cons in I1 as [->|I1]; [apply Hrefl | now apply H2]. }
    subst x2. f_equal. apply IH; [| assumption | now apply Permutation_cons_inv in Hp].
    intros a b Ha Hb. apply Hanti; now right.
Qed.

(** Every order of the entries of a directory is the listing of some
    environment: the one that ranks the entries by their place. *)
Lemma listing_any_order (env : PathEnv) (fs : gmap path node) (p : path) (l : list path) :
  l ≡ₚ children fs p ->
  entry_rank env = position l ->
  listing env fs p = l.
Proof.
  intros Hp Hrank.
  assert (Hnd : NoDup l) by (rewrite Hp; apply children_NoDup).
  symmetry. apply (StronglySorted_unique_within (listed_before env)).
  - unfold listed_before. rewrite Hrank. intros a b Ha Hb H1 H2.
    apply (position_inj l); [assumption.. | lia].
  - intros a. unfold listed_before. lia.
  - eapply StronglySorted_within; [| apply (position_sorted l Hnd)].
    intros a b _ _. unfold listed_before. now rewrite Hrank.
  - pose proof (listed_before_trans env). pose proof (listed_before_total env).
    now apply StronglySorted_merge_sort.
  - unfold listing. now rewrite merge_sort_Permutation.
Qed.

(** ** Where [edit_file] writes *)

Lemma keeps_touches {A} (P : path -> Prop) (m : M A) : keeps_files m -> touches_only P m.
Proof. intros H w q _. now rewrite H. Qed.

Lemma touches_bind {A B} (P : path -> Prop) (m : M A) (k : A -> M B) :
  touches_only P m ->
  (forall a w w', m w = (Ok a, w') -> touches_only P (k a)) ->
  touches_only P (m ≫= k).
Proof.
  intros Hm Hk w q Hq. unfold mbind, M_bind. specialize (Hm w q Hq).
  destruct (m w) as [[a|e] w1] eqn:E; cbn [snd] in *; [| assumption].
  rewrite (Hk a w w1 E w1 q Hq). assumption.
Qed.

Lemma touches_try {A} (P : path -> Prop) (body : M A) (h : exn -> M A) :
  touches_only P body -> (forall e, touches_only P (h e)) ->
  touches_only P (try_except body h).
Proof.
  intros Hm Hh w q Hq. unfold try_except. specialize (Hm w q Hq).
  destruct (body w) as [[a|e] w1]; cbn [snd] in *; [assumption |].
  rewrite (Hh e w1 q Hq). assumption.
Qed.

Lemma touches_if {A} (P : path -> Prop) (b : bool) (m1 m2 : M A) :
  touches_only P m1 -> touches_only P m2 -> touches_only P (if b then m1 else m2).
Proof. now destruct b. Qed.

Lemma touches_write_text (env : PathEnv) (P : path -> Prop) (p : path) (v : pyval) :
  P p -> touches_only P (write_text env p v).
Proof.
  intros Hp w q Hq. assert (p <> q) by (intros ->; contradiction).
  unfold write_text, open_w, write, encode_text. unfold_m. cbn.
  destruct (node_at (files w) p) as [[c|]|];
    [| reflexivity | destruct (node_at (files w) (parent p)) as [[c|]|]; try reflexivity];
    destruct v as [| b | z | text]; cbn; try destruct (Str.utf8_valid text); cbn;
    rewrite ?lookup_insert_ne by assumption; reflexivity.
Qed.

Lemma mkdirs_frame (env : PathEnv) (target : path) (rest : list string) :
  forall (fs fs' : gmap path node) (done : path),
    mkdirs env target fs done rest = Ok fs' ->
    forall q, q ∉ way done rest -> fs' !! q = fs !! q.
Proof.
  induction rest as [|c rest IH]; intros fs fs' done; cbn [mkdirs way].
  - now intros [= ->].
  - intros H q Hq. apply not_elem_of_cons in Hq as [Hne Hq].
    destruct (fs !! (done ++ [c])) as [[c0|]|]; [discriminate | ..];
      rewrite (IH _ _ _ H q Hq); now apply lookup_insert_ne.
Qed.

Lemma parent_prefix (p : path) : parent p `prefix_of` p.
Proof.
  destruct (decide (p = [])) as [->|Hp]; [reflexivity |].
  destruct (exists_last Hp) as (q & x & ->).
  unfold parent. rewrite removelast_last. now exists [x].
Qed.

Lemma touches_mkdir_parents (env : PathEnv) (p : path) :
  touches_only (fun q => q `prefix_of` p) (mkdir_parents env (parent p)).
Proof.
  intros w q Hq. unfold mkdir_parents. unfold_m. cbn.
  destruct (mkdirs env (parent p) (files w) [] (parent p)) as [fs'|e] eqn:E; [| reflexivity].
  cbn. apply (mkdirs_frame _ _ _ _ _ _ E).
  intros Hin. apply way_parent_prefix in Hin as (Hpre & _ & _).
  apply Hq. etrans; [exact Hpre | apply parent_prefix].
Qed.

Section EditFacts.

Variable env : PathEnv.

Lemma Path_resolve_value (s : string) (p a : path) (w w' : world) :
  resolve env s = Ok p -> Path_resolve env (VStr s) w = (Ok a, w') -> a = p.
Proof. intros Hr. cbn. unfold lift. rewrite Hr. now intros [= <- _]. Qed.

Lemma touches__create_new_file (s : string) (p : path) (v : pyval) :
  resolve env s = Ok p ->
  touches_only (fun q => q `prefix_of` p) (_create_new_file env (VStr s) v).
Proof.
  intros Hr. unfold _create_new_file.
  apply touches_try; [| intros e; apply keeps_touches, keeps_ret].
  apply touches_bind; [apply keeps_touches, keeps_Path_resolve |].
  intros a w w' Ha. rewrite (Path_resolve_value _ _ _ _ _ Hr Ha).
  apply touches_if; [apply keeps_touches, keeps_ret |].
  apply touches_bind; [apply touches_mkdir_parents |]. intros _ _ _ _.
  apply touches_bind; [now apply touches_write_text |]. intros _ _ _ _.
  apply keeps_touches, keeps_ret.
Qed.

(** X8. Where [edit_file_tool] can write. On every input, either the
    world is left exactly as it was (no operation at all: the arguments
    were rejected, the path is no string, cannot be resolved or fails
    the prefix test), or the path is a string that resolves to a path
    [p] passing the prefix test, and every path that does not lead to
    [p] (that is neither [p] nor one of its ancestors) holds what it
    held before. *)
Theorem edit_file_tool_writes_only_towards_target (d : gmap string pyval) (w : world) :
  snd (edit_file_tool env d w) = w
  \/ exists s p,
       dict_get d "path" = VStr s
       /\ resolve env s = Ok p
       /\ escapes env p = false
       /\ forall q, ~ q `prefix_of` p ->
                    files (snd (edit_file_tool env d w)) !! q = files w !! q.
Proof.
  unfold edit_file_tool.
  destruct (is_none (dict_get d "path") || is_none (dict_get d "new_str")); [now left |].
  destruct (negb (is_none (dict_get d "old_str")) && _); [now left |].
  destruct (dict_get d "path") as [| b | z | s] eqn:Hp; try (now left).
  destruct (resolve env s) as [p|e] eqn:Hr.
  2:{ left. unfold Path_resolve, lift, mbind, M_bind. now rewrite Hr. }
  erewrite bind_run by (apply Path_resolve_run; eassumption).
  destruct (escapes env p) eqn:He; [now left |].
  right. exists s, p. repeat split; try assumption.
  intros q Hq. revert w q Hq.
  match goal with
  | |- forall w q, _ -> files (snd (?m w)) !! q = _ =>
      change (touches_only (fun q => q `prefix_of` p) m)
  end.
  apply touches_try; [| intros e; apply keeps_touches, keeps_ret].
  apply touches_bind; [apply keeps_touches, keeps_path_exists |]. intros ex _ _ _.
  apply touches_if.
  - apply touches_if; [now apply touches__create_new_file | apply keeps_touches, keeps_ret].
  - apply touches_bind; [apply keeps_touches, keeps_is_file |]. intros is_f _ _ _.
    apply touches_if; [apply keeps_touches, keeps_ret |].
    apply touches_bind; [apply keeps_touches, keeps_read_text |]. intros c _ _ _.
    apply touches_bind; [apply keeps_touches, keeps_lift |]. intros found _ _ _.
    apply touches_if; [apply keeps_touches, keeps_ret |].
    apply touches_bind.
    { apply touches_if; apply keeps_touches, keeps_lift. }
    intros modified _ _ _.
    apply touches_bind; [now apply touches_write_text |]. intros _ _ _ _.
    apply keeps_touches, keeps_ret.
Qed.

Lemma bind_raise_run {A B} (m : M A) (k : A -> M B) (w w' : world) (e : exn) :
  m w = (Raise e, w') -> (m ≫= k) w = (Raise e, w').
Proof. intros H. unfold mbind, M_bind. now rewrite H. Qed.

Lemma lift_bind_raise {A B} (e : exn) (k : A -> M B) (w : world) :
  (lift (Raise e) ≫= k) w = (Raise e, w).
Proof. reflexivity. Qed.

Lemma lift_bind_ok {A B} (a : A) (k : A -> M B) (w : world) :
  (lift (Ok a) ≫= k) w = k a w.
Proof. reflexivity. Qed.

Lemma if_lift {A} (b : bool) (r1 r2 : res A) :
  (if b then lift r1 else lift r2) = lift (if b then r1 else r2).
Proof. now destruct b. Qed.

Lemma edited_text_encodable (old_str new_str : pyval) (text modified : string) :
  (forall t, old_str = VStr t -> Str.utf8_valid t = true) ->
  (forall t, new_str = VStr t -> Str.utf8_valid t = true) ->
  Str.utf8_valid text = true ->
  edited_text old_str new_str text = Ok modified ->
  Str.utf8_valid modified = true.
Proof.
  intros Ho Hn Ht. unfold edited_text.
  destruct old_str as [| b | z | old], new_str as [| b' | z' | new];
    cbn [is_none orb py_eq py_concat py_replace]; try discriminate;
    try (destruct (String.eqb old ""); discriminate).
  - intros [= <-]. apply Utf8Facts.utf8_valid_app; auto.
  - destruct (String.eqb_spec old "") as [-> | Hne]; intros [= <-].
    + apply Utf8Facts.utf8_valid_app; auto.
    + apply Utf8Facts.utf8_valid_replace; auto.
Qed.

(** The ways in which [edit_file_tool] ends on an existing target. *)
Lemma edit_file_tool_existing_cases
    (d : gmap string pyval) (s : string) (p : path) (n : node) (w : world) :
  dict_get d "path" = VStr s ->
  resolve env s = Ok p ->
  node_at (files w) p = Some n ->
  (exists w', edit_file_tool env d w = (Ok (Text "OK"), w'))
  \/ files (snd (edit_file_tool env d w)) = files w
  \/ exists bytes text,
       n = File bytes
       /\ Str.utf8_valid bytes = true
       /\ edited_text (dict_get d "old_str") (dict_get d "new_str")
                      (Str.universal_newlines bytes) = Ok text
       /\ Str.utf8_valid text = false
       /\ edit_file_tool env d w
          = (Ok (ErrorJson ("Error editing file " +:+ s +:+ ": "
                            +:+ strerror env UnicodeEncodeError text)),
             {| files := <[p := File ""]> (files w);
                oplog := oplog w ++ [OpExists p; OpIsFile p; OpRead p; OpWrite p] |}).
Proof.
  intros Hp Hr Hnode. unfold edit_file_tool. rewrite Hp. cbn [is_none orb].
  destruct (is_none (dict_get d "new_str")); [now right; left |].
  destruct (negb (is_none (dict_get d "old_str")) && _); [now right; left |].
  erewrite bind_run by (apply Path_resolve_run; eassumption).
  destruct (escapes env p); [now right; left |].
  unfold try_except.
  erewrite bind_run by apply path_exists_run. rewrite Hnode. cbn [negb].
  erewrite bind_run by apply is_file_run. cbn [logged files]. rewrite Hnode.
  destruct n as [bytes|]; [| now right; left]. cbn [negb].
  destruct (Str.utf8_valid bytes) eqn:Hbv.
  2:{ erewrite bind_raise_run by (apply read_text_undecodable; eassumption).
      now right; left. }
  erewrite bind_run by (apply read_text_run; eassumption).
  destruct (py_in (dict_get d "old_str") (Str.universal_newlines bytes)) as [found|e];
    [rewrite lift_bind_ok | rewrite lift_bind_raise; now right; left].
  destruct found; [| now right; left]. cbn [negb].
  rewrite if_lift. fold (edited_text (dict_get d "old_str") (dict_get d "new_str")
                                     (Str.universal_newlines bytes)).
  destruct (edited_text _ _ _) as [modified|e] eqn:Hm;
    [rewrite lift_bind_ok | rewrite lift_bind_raise; now right; left].
  destruct (Str.utf8_valid modified) eqn:Hmv.
  - left. erewrite bind_run by (eapply write_text_existing; cbn [logged files]; eassumption).
    eexists. reflexivity.
  - right; right. exists bytes, modified. repeat split; try assumption.
    erewrite bind_raise_run
      by (eapply write_text_existing_unencodable; cbn [logged files]; eassumption).
    unfold mret, M_ret, logged. cbn [files oplog exn_text py_str].
    now rewrite <- !app_assoc.
Qed.




Lemma read_file_tool_run
    (d : gmap string pyval) (s : string) (p : path) (c : string) (w : world) :
  dict_get d "path" = VStr s ->
  s <> "" ->
  resolve env s = Ok p ->
  escapes env p = false ->
  node_at (files w) p = Some (File c) ->
  Str.utf8_valid c = true ->
  read_file_tool env d w
  = (Ok (Text (Str.universal_newlines c)),
     {| files := files w; oplog := oplog w ++ [OpIsFile p; OpRead p] |}).
Proof.
  intros Hp Hs Hr He Hnode Hv. unfold read_file_tool.
  assert (Ht : truthy (VStr s) = true) by (cbn; now destruct (String.eqb_spec s "")).
  rewrite Hp, Ht. cbn [negb].
  apply try_run_ok.
  erewrite bind_run by (apply Path_resolve_run; eassumption).
  rewrite He.
  erewrite bind_run by apply is_file_run. rewrite Hnode. cbn [negb].
  erewrite bind_run by (apply read_text_run; eassumption).
  unfold mret, M_ret, logged. cbn [files oplog]. now rewrite <- app_assoc.
Qed.

Lemma _create_new_file_text (f v : pyval) (t : string) (w w' : world) :
  _create_new_file env f v w = (Ok (Text t), w') ->
  t = "Successfully created file " +:+ py_str f.
Proof.
  unfold _create_new_file, try_except.
  destruct (Path_resolve env f w) as [[p|e] w1] eqn:E.
  2:{ erewrite bind_raise_run by eassumption. cbn. discriminate. }
  erewrite bind_run by eassumption.
  destruct (escapes env p); [discriminate |].
  destruct (mkdir_parents env (parent p) w1) as [[[]|e] w2] eqn:E1.
  2:{ erewrite bind_raise_run by eassumption. cbn. discriminate. }
  erewrite bind_run by eassumption.
  destruct (write_text env p v w2) as [[[]|e] w3] eqn:E2.
  2:{ erewrite bind_raise_run by eassumption. cbn. discriminate. }
  erewrite bind_run by eassumption.
  now intros [= <- _].
Qed.

(** What a successful edit tells about the world it leaves. *)
Lemma edit_file_tool_ok_inv (d : gmap string pyval) (s : string) (w w' : world) :
  dict_get d "path" = VStr s ->
  edit_file_tool env d w = (Ok (Text "OK"), w') ->
  exists p c,
    resolve env s = Ok p /\ escapes env p = false
    /\ node_at (files w') p = Some (File c)
    /\ Str.utf8_valid c = true.
Proof.
  intros Hp. unfold edit_file_tool. rewrite Hp. cbn [is_none orb].
  destruct (is_none (dict_get d "new_str")); [discriminate |].
  destruct (negb (is_none (dict_get d "old_str")) && _); [discriminate |].
  destruct (resolve env s) as [p|e] eqn:Hr.
  2:{ unfold Path_resolve, lift, mbind, M_bind. rewrite Hr. discriminate. }
  erewrite bind_run by (apply Path_resolve_run; eassumption).
  destruct (escapes env p) eqn:He; [discriminate |].
  intros H. exists p.
  unfold try_except in H.
  match type of H with
  | (let (_, _) := ?body w in _) = _ => destruct (body w) as [[a|e] w1] eqn:B
  end; [| discriminate].
  injection H as -> ->.
  erewrite bind_run in B by apply path_exists_run.
  destruct (node_at (files w) p) as [n|] eqn:Hnode; cbn [negb] in B.
  - erewrite bind_run in B by apply is_file_run. cbn [logged files] in B.
    rewrite Hnode in B. destruct n as [c|]; [| discriminate]. cbn [negb] in B.
    destruct (Str.utf8_valid c) eqn:Hcv.
    2:{ erewrite bind_raise_run in B by (apply read_text_undecodable; eassumption).
        discriminate. }
    erewrite bind_run in B by (apply read_text_run; eassumption).
    destruct (py_in (dict_get d "old_str") (Str.universal_newlines c)) as [found|e];
      [rewrite lift_bind_ok in B | rewrite lift_bind_raise in B; discriminate].
    destruct found; [| discriminate]. cbn [negb] in B.
    rewrite if_lift in B.
    match type of B with
    | (lift ?r ≫= _) _ = _ => destruct r as [modified|e]
    end; [rewrite lift_bind_ok in B | rewrite lift_bind_raise in B; discriminate].
    destruct (Str.utf8_valid modified) eqn:Hmv.
    2:{ erewrite bind_raise_run in B
          by (eapply write_text_existing_unencodable; cbn [logged files]; eassumption).
        discriminate. }
    erewrite bind_run in B
      by (eapply write_text_existing; cbn [logged files]; eassumption).
    injection B as <-. exists modified.
    split; [reflexivity | split; [assumption | split; [| assumption]]]. cbn [files].
    destruct p; [discriminate |]. cbn [node_at]. apply lookup_insert_eq.
  - destruct (py_eq (dict_get d "old_str") (VStr "") || is_none (dict_get d "old_str"));
      [| discriminate].
    apply _create_new_file_text in B. discriminate B.
Qed.

(** X12. A successful edit can be read back: when [edit_file_tool]
    answers "OK" for a non-empty path string, the path resolves to a
    regular file whose bytes are well-formed UTF-8, and [read_file_tool]
    on the same path string, run in the world the edit left, returns
    the text of that file: its content with CR LF and CR turned into
    LF, so the content itself when it holds no CR. *)
Theorem edit_then_read_round_trip
    (d d' : gmap string pyval) (s : string) (w w' : world) :
  dict_get d "path" = VStr s ->
  dict_get d' "path" = VStr s ->
  s <> "" ->
  edit_file_tool env d w = (Ok (Text "OK"), w') ->
  exists p c,
    resolve env s = Ok p
    /\ node_at (files w') p = Some (File c)
    /\ Str.utf8_valid c = true
    /\ read_file_tool env d' w'
       = (Ok (Text (Str.universal_newlines c)),
          {| files := files w'; oplog := oplog w' ++ [OpIsFile p; OpRead p] |})
    /\ (Str.has_cr c = false -> Str.universal_newlines c = c).
Proof.
  intros Hp Hp' Hs H.
  destruct (edit_file_tool_ok_inv d s w w' Hp H) as (p & c & Hr & He & Hnode & Hv).
  exists p, c. split; [assumption | split; [assumption | split; [assumption | split]]].
  - now apply (read_file_tool_run d' s).
  - apply Utf8Facts.universal_newlines_without_cr.
Qed.

Lemma write_text_new_not_str (p : path) (v : pyval) (w : world) :
  (forall t, v <> VStr t) ->
  node_at (files w) p = None ->
  node_at (files w) (parent p) = Some Dir ->
  exists e,
    write_text env p v w
    = (Raise e, {| files := <[p := File ""]> (files w); oplog := oplog w ++ [OpWrite p] |}).
Proof.
  intros Hv H1 H2. unfold write_text, open_w, write. unfold_m. cbn. rewrite H1, H2. cbn.
  destruct v as [| b | z | t]; [eauto .. | now destruct (Hv t)].
Qed.


End EditFacts.

(* ================================================================== *)
(** * Further properties of the agent *)
(* ================================================================== *)

Section ToolMap.
Import Agent.

Lemma register_lookup_other (tools : list ToolDefinition) :
  forall (acc : gmap string ToolDefinition) (n : string),
    n ∉ map tool_name tools ->
    fold_left (fun m tool => <[tool_name tool := tool]> m) tools acc !! n = acc !! n.
Proof.
  induction tools as [|t tools IH]; intros acc n Hn; cbn [fold_left]; [reflexivity |].
  cbn [map] in Hn. apply not_elem_of_cons in Hn as [Hne Hn].
  rewrite (IH _ _ Hn). now apply lookup_insert_ne.
Qed.

Lemma register_lookup_some (tools : list ToolDefinition) :
  forall (acc : gmap string ToolDefinition) (n : string),
    n ∈ map tool_name tools ->
    is_Some (fold_left (fun m tool => <[tool_name tool := tool]> m) tools acc !! n).
Proof.
  induction tools as [|t tools IH]; intros acc n Hn; cbn [fold_left map] in *.
  - inversion Hn.
  - destruct (decide (n ∈ map tool_name tools)) as [Hin|Hout]; [now apply IH |].
    rewrite (register_lookup_other _ _ _ Hout).
    apply elem_of_cons in Hn as [-> | Hn]; [| contradiction].
    rewrite lookup_insert_eq. eauto.
Qed.

(** X14. The tool table built by [Agent.__init__] finds a tool under
    its name: the last tool registered under a name is the one looked
    up (so with distinct names every tool is found), and a name that no
    tool carries is not in the table. *)
Theorem tool_map_lookup (model : string) :
  (forall before t after,
      tool_name t ∉ map tool_name after ->
      tool_map (init (before ++ t :: after) model) !! tool_name t = Some t)
  /\ (forall tools n,
        tool_map (init tools model) !! n = None <-> n ∉ map tool_name tools).
Proof.
  split.
  - intros before t after Hlast. cbn [init tool_map].
    rewrite fold_left_app. cbn [fold_left].
    rewrite (register_lookup_other _ _ _ Hlast). apply lookup_insert_eq.
  - intros tools n. cbn [init tool_map]. split.
    + intros Hnone Hin. apply (register_lookup_some tools ∅) in Hin as [t Ht].
      congruence.
    + intros Hout. now rewrite (register_lookup_other _ _ _ Hout).
Qed.

End ToolMap.

Lemma lstrip_whitespace (c s : string) :
  c ∈ Str.whitespace -> Str.lstrip (c +:+ s) = Str.lstrip s.
Proof.
  intros H. vm_compute in H.
  repeat (apply elem_of_cons in H as [-> | H]; [reflexivity |]).
  inversion H.
Qed.

Lemma lstrip_all_whitespace (chars : list string) :
  all_whitespace chars -> Str.lstrip (text_of chars) = "".
Proof.
  induction 1 as [|c chars Hc _ IH]; [reflexivity |].
  cbn [text_of foldr]. now rewrite (lstrip_whitespace _ _ Hc).
Qed.

Lemma strip_all_whitespace (chars : list string) :
  all_whitespace chars -> Str.strip (text_of chars) = "".
Proof. intros H. unfold Str.strip. now rewrite (lstrip_all_whitespace _ H). Qed.

Lemma tool_balanced_app (l l' : list turn) :
  forall k, tool_balanced k l = true -> tool_balanced k (l ++ l') = tool_balanced 0 l'.
Proof.
  induction l as [|t l IH]; intros k H; cbn [tool_balanced app] in *.
  - apply Nat.eqb_eq in H. now subst.
  - destruct t as [u | m | c].
    + apply andb_true_iff in H as [-> H]. now apply IH.
    + apply andb_true_iff in H as [-> H]. now apply IH.
    + destruct k as [|k]; [discriminate |]. now apply IH.
Qed.

Section LoopFacts.
Import Agent.

Variable self : Agent.t.

(** X15. End of input at the prompt ends the run: [Exiting] is printed
    after the prompt, the conversation and the file system are what
    they were, and whatever the environment would offer afterwards is
    never looked at. *)
Theorem end_of_input_ends_the_run (o : oracle) (later : list oracle) (st : loop_state) :
  needs_user_input st = true ->
  user_message o = None ->
  run_from self (o :: later) st
  = Break {| conversation := conversation st;
             needs_user_input := true;
             mach := {| fsys := fsys (mach st);
                        trace := trace (mach st) ++ [Prompt; Exiting] |} |}.
Proof.
  intros Hn Hu. cbn [run_from]. unfold iteration, get_user_message.
  rewrite Hn, Hu. unfold emit. cbn [fsys trace]. now rewrite <- app_assoc.
Qed.

(** X16. A line of whitespace only is not sent to the model, be the
    whitespace ASCII (space, tab, ...) or not (no-break space, U+3000,
    ...): the pass ends after the prompt, nothing is appended to the
    conversation, no inference and no tool runs, and the user is
    prompted again. *)
Theorem blank_line_is_skipped (o : oracle) (chars : list string) (st : loop_state) :
  needs_user_input st = true ->
  user_message o = Some (text_of chars) ->
  all_whitespace chars ->
  iteration self o st
  = Continue {| conversation := conversation st;
                needs_user_input := true;
                mach := {| fsys := fsys (mach st);
                           trace := trace (mach st) ++ [Prompt] |} |}.
Proof.
  intros Hn Hu Hb. unfold iteration, get_user_message.
  rewrite Hn, Hu, (strip_all_whitespace _ Hb). reflexivity.
Qed.

Lemma run_tool_calls_balanced (calls : list tool_call) :
  forall m rest,
    tool_balanced (length calls) (fst (run_tool_calls self calls m) ++ rest)
    = tool_balanced 0 rest.
Proof.
  induction calls as [|c calls IH]; intros m rest; cbn [run_tool_calls length].
  - reflexivity.
  - destruct (handle_tool_call self c m) as [r m1].
    specialize (IH m1 rest).
    destruct (run_tool_calls self calls m1) as [results m2].
    cbn [fst app tool_balanced] in *. exact IH.
Qed.

Lemma inference_phase_balanced (o : oracle) (conv : list turn) (m : machine) :
  tool_balanced 0 conv = true ->
  tool_balanced 0 (conversation (final (inference_phase self o conv m))) = true.
Proof.
  intros H. unfold inference_phase, run_inference.
  destruct (chat o conv) as [msg|e]; [| exact H].
  destruct (tool_calls msg) as [[|c cs]|] eqn:E.
  - cbn [final conversation]. rewrite (tool_balanced_app _ _ _ H).
    cbn. unfold requested. now rewrite E.
  - pose proof (run_tool_calls_balanced (c :: cs)
                  match content msg with
                  | Some text =>
                      if truthy (VStr text)
                      then emit (AssistantText (Str.strip text)) (emit (Inference conv) m)
                      else emit (Inference conv) m
                  | None => emit (Inference conv) m
                  end []) as Hb.
    destruct (run_tool_calls self (c :: cs) _) as [results m2].
    cbn [final conversation fst] in *. rewrite app_nil_r in Hb.
    rewrite <- app_assoc, (tool_balanced_app _ _ _ H).
    cbn [app tool_balanced Nat.eqb andb]. unfold requested. rewrite E. exact Hb.
  - cbn [final conversation]. rewrite (tool_balanced_app _ _ _ H).
    cbn. unfold requested. now rewrite E.
Qed.

Lemma iteration_balanced (o : oracle) (st : loop_state) :
  tool_balanced 0 (conversation st) = true ->
  tool_balanced 0 (conversation (final (iteration self o st))) = true.
Proof.
  intros H. unfold iteration, get_user_message.
  destruct (needs_user_input st); [| now apply inference_phase_balanced].
  destruct (user_message o) as [u|]; [| exact H].
  destruct (negb _); [exact H |].
  apply inference_phase_balanced. now rewrite (tool_balanced_app _ _ _ H).
Qed.

Lemma run_from_balanced (script : list oracle) :
  forall st,
    tool_balanced 0 (conversation st) = true ->
    tool_balanced 0 (conversation (final (run_from self script st))) = true.
Proof.
  induction script as [|o script IH]; intros st H; cbn [run_from]; [exact H |].
  pose proof (iteration_balanced o st H) as H1.
  destruct (iteration self o st) as [st'|st']; cbn [final] in *; [now apply IH | exact H1].
Qed.

(** X17. Tool results always match the requests. Whatever the user
    and the model do, in the conversation a run has built every
    assistant message is followed by exactly as many tool turns as it
    carries tool calls, and there is no tool turn anywhere else. *)
Theorem conversation_tool_turns_match_requests (script : list oracle) (w : world) :
  tool_balanced 0 (conversation (final (run self script w))) = true.
Proof. unfold run. apply run_from_balanced. reflexivity. Qed.

Lemma iteration_without_tools_keeps_fsys (o : oracle) (st : loop_state) :
  asks_no_tools o ->
  fsys (mach (final (iteration self o st))) = fsys (mach st).
Proof.
  intros Ho.
  assert (H : forall conv m, fsys (mach (final (inference_phase self o conv m))) = fsys m).
  { intros conv m. unfold inference_phase, run_inference.
    destruct (chat o conv) as [msg|e] eqn:E; [| reflexivity].
    specialize (Ho conv msg E). unfold requested in Ho.
    destruct (tool_calls msg) as [[|c cs]|]; [| discriminate |];
      cbn [final mach]; destruct (content msg) as [text|];
        try destruct (truthy (VStr text)); reflexivity. }
  unfold iteration, get_user_message.
  destruct (needs_user_input st); [| apply H].
  destruct (user_message o) as [u|]; [| reflexivity].
  destruct (negb _); [reflexivity |]. now rewrite H.
Qed.

(** X18. The agent touches the file system only at the model's
    request: in a run in which the model never asks for a tool, the
    files and the log of file operations at the end are those of the
    start. *)
Theorem no_tool_request_no_file_operation (script : list oracle) (w : world) :
  Forall asks_no_tools script ->
  fsys (mach (final (run self script w))) = w.
Proof.
  unfold run. change w with (fsys (mach (start w))) at 2.
  generalize (start w) as st. clear w.
  induction script as [|o script IH]; intros st H; cbn [run_from]; [reflexivity |].
  inversion H as [|? ? Ho Hs]; subst.
  pose proof (iteration_without_tools_keeps_fsys o st Ho) as H1.
  destruct (iteration self o st) as [st'|st']; cbn [final] in *; [| exact H1].
  now rewrite (IH st' Hs).
Qed.

End LoopFacts.

(* ================================================================== *)
(** * Further properties of the tools, continued *)
(* ================================================================== *)

Lemma append_cancel_empty (n sfx : string) : n = n +:+ sfx -> sfx = "".
Proof.
  intros H. apply (f_equal String.length) in H.
  rewrite StrFacts.length_append in H. destruct sfx; [reflexivity | cbn in H; lia].
Qed.

Section Confinement.

Variable env : PathEnv.

(** X19. Without its required arguments [edit_file_tool] does nothing:
    when "path" or "new_str" is absent or [None], it answers with the
    'Invalid input' error, whatever the other arguments are, without
    resolving the path or looking at the file system. *)
Theorem edit_file_tool_requires_path_and_new_str (d : gmap string pyval) (w : world) :
  (d !! "path" = None \/ d !! "path" = Some VNone
   \/ d !! "new_str" = None \/ d !! "new_str" = Some VNone) ->
  edit_file_tool env d w = (Ok (ErrorJson invalid_input_msg), w).
Proof.
  intros H. unfold edit_file_tool.
  assert (E : (is_none (dict_get d "path") || is_none (dict_get d "new_str")) = true).
  { unfold dict_get. destruct H as [-> | [-> | [-> | ->]]]; cbn;
      rewrite ?orb_true_r; reflexivity. }
  now rewrite E.
Qed.


(** X21. [_create_new_file] on its own: for arguments of any type it
    returns to its caller, and either the world is left exactly as it
    was, or the path is a string resolving to a path [p] that passes
    the prefix test and every path that does not lead to [p] holds
    what it held before. *)
Theorem _create_new_file_returns_and_writes_only_towards_target
    (f v : pyval) (w : world) :
  (exists o w', _create_new_file env f v w = (Ok o, w'))
  /\ (snd (_create_new_file env f v w) = w
      \/ exists s p,
           f = VStr s /\ resolve env s = Ok p /\ escapes env p = false
           /\ forall q, ~ q `prefix_of` p ->
                        files (snd (_create_new_file env f v w)) !! q = files w !! q).
Proof.
  split; [apply _create_new_file_returns |].
  destruct f as [| b | z | s]; try (now left).
  destruct (resolve env s) as [p|e] eqn:Hr.
  2:{ left. unfold _create_new_file, try_except, Path_resolve, lift, mbind, M_bind.
      now rewrite Hr. }
  destruct (escapes env p) eqn:He.
  { left. unfold _create_new_file, try_except.
    erewrite bind_run by (apply Path_resolve_run; eassumption). now rewrite He. }
  right. exists s, p. repeat split; try assumption.
  intros q Hq. now apply (touches__create_new_file env s p v Hr w q).
Qed.


End Confinement.

(* ================================================================== *)
(** * The further properties at work *)
(* ================================================================== *)

Section MoreInstances.
Import Example Agent.

Lemma a_txt_relative : is_relative_to a_txt (cwd env).
Proof. now exists ["a.txt"]. Qed.

Lemma no_regular_file_towards (p : path) :
  ~ a_txt `prefix_of` p ->
  ~ ["home"; "u"; "proj-evil"; "s"] `prefix_of` p ->
  forall q c, q `prefix_of` p -> fs0 !! q <> Some (File c).
Proof.
  intros H1 H2 q c Hq Hf. apply regular_files_of_fs0 in Hf as [-> | ->]; contradiction.
Qed.



Lemma read_file_tool_requires_path_witness :
  read_file_tool env (args [("file", VStr "a.txt")]) w0
  = (Ok (ErrorJson "Path is required."), w0).
Proof. apply (read_file_tool_requires_path env). left. reflexivity. Defined.






Lemma edit_then_read_round_trip_witness :
  let d := args [("path", VStr "a.txt"); ("old_str", VStr "a"); ("new_str", VStr "b")] in
  let w' := snd (edit_file_tool env d w0) in
  exists p c,
    resolve env "a.txt" = Ok p
    /\ node_at (files w') p = Some (File c)
    /\ Str.utf8_valid c = true
    /\ read_file_tool env (args [("path", VStr "a.txt")]) w'
       = (Ok (Text (Str.universal_newlines c)),
          {| files := files w'; oplog := oplog w' ++ [OpIsFile p; OpRead p] |})
    /\ (Str.has_cr c = false -> Str.universal_newlines c = c).
Proof.
  cbv zeta.
  apply (edit_then_read_round_trip env
           (args [("path", VStr "a.txt"); ("old_str", VStr "a"); ("new_str", VStr "b")])
           (args [("path", VStr "a.txt")]) "a.txt" w0);
    try (vm_compute; reflexivity); discriminate.
Defined.


Lemma tool_map_lookup_witness :
  tool_map agent !! "edit_file" = Some (EDIT_FILE_DEFINITION env)
  /\ tool_map agent !! "delete_file" = None.
Proof.
  destruct (tool_map_lookup "qwen3:8b") as [Hlast Hnone]. split.
  - apply (Hlast [READ_FILE_DEFINITION env; LIST_FILES_DEFINITION env]
                 (EDIT_FILE_DEFINITION env) []).
    apply not_elem_of_nil.
  - apply (Hnone (available_tools env) "delete_file").
    intros H. vm_compute in H.
    repeat (apply elem_of_cons in H as [H|H]; [discriminate H |]).
    inversion H.
Defined.

Lemma end_of_input_ends_the_run_witness :
  run_from agent [eof; asks_tools] (start w0)
  = Break {| conversation := [];
             needs_user_input := true;
             mach := {| fsys := w0; trace := [Banner] ++ [Prompt; Exiting] |} |}.
Proof. apply (end_of_input_ends_the_run agent eof [asks_tools] (start w0)); reflexivity. Defined.

Lemma blank_line_is_skipped_witness :
  iteration agent blank_line (start w0)
  = Continue {| conversation := [];
                needs_user_input := true;
                mach := {| fsys := w0; trace := [Banner] ++ [Prompt] |} |}.
Proof.
  apply (blank_line_is_skipped agent blank_line
           [" "; Str.encode_char 9; Str.encode_char 160] (start w0));
    try reflexivity.
  repeat constructor; vm_compute; set_solver.
Defined.

Lemma no_tool_request_no_file_operation_witness :
  fsys (mach (final (run agent [answers_text; server_down; blank_line; eof] w0))) = w0.
Proof.
  apply (no_tool_request_no_file_operation agent).
  repeat constructor; intros conv msg H; try discriminate H;
    injection H as <-; reflexivity.
Defined.

Lemma edit_file_tool_requires_path_and_new_str_witness :
  edit_file_tool env (args [("old_str", VStr "a"); ("new_str", VStr "b")]) w0
  = (Ok (ErrorJson invalid_input_msg), w0).
Proof. apply (edit_file_tool_requires_path_and_new_str env). left. reflexivity. Defined.



(** A file with CR LF is read with LF alone, an [old_str] holding a CR
    is not found in it, and an edit writes the line end back as LF. *)
Remark crlf_is_read_as_lf :
  fst (read_file_tool env (args [("path", VStr "a.txt")]) w_crlf)
  = Ok (Text (String "a" (String Str.LF "b")))
  /\ fst (edit_file_tool env
            (args [("path", VStr "a.txt");
                   ("old_str", VStr (String Str.CR (String Str.LF "")));
                   ("new_str", VStr "-")]) w_crlf)
     = Ok (ErrorJson "'old_str' not found in file a.txt.")
  /\ files (snd (edit_file_tool env
                   (args [("path", VStr "a.txt"); ("old_str", VStr ""); ("new_str", VStr "!")])
                   w_crlf)) !! a_txt
     = Some (File (String "a" (String Str.LF "b!"))).
Proof. repeat split; vm_compute; reflexivity. Qed.

(** A [new_str] with a lone surrogate cannot be encoded: the edit of
    [a.txt] is reported as failed and the file is left empty; the
    creation of [new.txt] is reported as failed and leaves an empty
    file. *)
Remark lone_surrogate_leaves_empty_file :
  Str.utf8_valid lone_surrogate = false
  /\ (exists msg,
        fst (edit_file_tool env
               (args [("path", VStr "a.txt"); ("old_str", VStr "a");
                      ("new_str", VStr lone_surrogate)]) w0)
        = Ok (ErrorJson ("Error editing file a.txt: " +:+ msg)))
  /\ files (snd (edit_file_tool env
                   (args [("path", VStr "a.txt"); ("old_str", VStr "a");
                          ("new_str", VStr lone_surrogate)]) w0)) !! a_txt
     = Some (File "")
  /\ (exists msg,
        fst (edit_file_tool env
               (args [("path", VStr "new.txt"); ("old_str", VStr "");
                      ("new_str", VStr lone_surrogate)]) w0)
        = Ok (ErrorJson ("Failed to create file new.txt: " +:+ msg)))
  /\ files (snd (edit_file_tool env
                   (args [("path", VStr "new.txt"); ("old_str", VStr "");
                          ("new_str", VStr lone_surrogate)]) w0))
       !! ["home"; "u"; "proj"; "new.txt"]
     = Some (File "").
Proof.
  split; [reflexivity | split; [| split; [| split]]];
    try (eexists; vm_compute; reflexivity); vm_compute; reflexivity.
Qed.

End MoreInstances.
